(** * FSST decoder ([fsst.h]): a shallow embedding of [fsst_decompress]

    The decoder walks a compressed byte string with an input cursor
    [posIn] and an output cursor [posOut], expanding every code below
    [FSST_ESC] into the symbol the decoder table stores for it and copying
    the byte after an escape verbatim.  Output that does not fit the
    caller's buffer is counted but not stored.

    Data are modelled as the header has them: [unsigned char] as
    [Byte.byte], [size_t] as [Z] with the reduction modulo [2^64] written
    at every arithmetic operation, the two arrays of the decoder as lists
    and the caller's buffer as a list that is updated in place.  Memory is
    flat, as the pointer arithmetic of the source assumes: a symbol is read
    through a byte address relative to the start of the [symbol] array.

    The state carries the trace of the loads and stores made so far.  A
    load outside the compressed string or outside the [symbol] array has no
    value in the model and ends the run with an error; a store outside the
    buffer changes no byte of the buffer and shows in the trace.

    [lenIn] and the value returned are of type [size_t]: the theorems on a
    whole call take a compressed string of fewer than [2^64] bytes whose
    decompressed length is below [2^64] too. *)

From Stdlib Require Import ZArith Lia Bool Sorting.Sorted.
From Stdlib Require Import Strings.Byte.
From stdpp Require Import base list.

Local Open Scope Z_scope.

(** ** Machine integers and bytes *)

Definition FSST_ESC : Z := 255.

(** [size_t] is an unsigned 64-bit integer. *)
Definition size_modulus : Z := 2 ^ 64.

Definition wrap (z : Z) : Z := z mod size_modulus.

Definition Z_of_byte (b : byte) : Z := Z.of_N (Byte.to_N b).

Definition byte_of_Z (z : Z) : byte :=
  default x00 (Byte.of_N (Z.to_N (z mod 256))).

Definition lenZ {A} (l : list A) : Z := Z.of_nat (length l).

(** Array subscript with an integer index. *)
Definition lookupZ {A} (l : list A) (i : Z) : option A :=
  if i <? 0 then None else l !! Z.to_nat i.

(** ** The decoder table *)

Record fsst_decoder_t := mk_decoder {
  zeroTerminated : byte;     (* unsigned char zeroTerminated *)
  len : list byte;           (* unsigned char len[255] *)
  symbol : list Z            (* unsigned long long symbol[255] *)
}.

(** [len[code]] *)
Definition len_at (decoder : fsst_decoder_t) (code : Z) : Z :=
  Z_of_byte (default x00 (lookupZ (len decoder) code)).

(** [symbol[code]] *)
Definition symbol_at (decoder : fsst_decoder_t) (code : Z) : Z :=
  default 0 (lookupZ (symbol decoder) code).

(** [decoder->zeroTerminated & 1] *)
Definition zt_bit (decoder : fsst_decoder_t) : bool :=
  negb (Z.land (Z_of_byte (zeroTerminated decoder)) 1 =? 0).

(** Byte [j] of a 64-bit word laid out in little-endian order. *)
Definition word_byte (w j : Z) : byte :=
  byte_of_Z (Z.land (Z.shiftr w (8 * j)) 255).

(** The [symbol] array occupies [255 * 8] bytes. *)
Definition symbol_array_bytes : Z := 255 * 8.

(** ** Memory accesses, errors and the machine state *)

Inductive event : Type :=
  | LoadIn (i : Z)             (* a load of strIn[i] *)
  | LoadSym (a : Z)            (* a load of byte a of the symbol array *)
  | Store (i : Z) (b : byte).  (* a store strOut[i] = b *)

Inductive error : Type :=
  | LoadOutOfBounds            (* a load outside strIn or the symbol array *)
  | OutOfFuel.

Inductive result (A : Type) : Type :=
  | Ok (a : A)
  | Err (e : error).
Arguments Ok {A} a.
Arguments Err {A} e.

Definition bind {A B} (r : result A) (k : A -> result B) : result B :=
  match r with
  | Ok a => k a
  | Err e => Err e
  end.

Notation "'let*' x ':=' r 'in' k" := (bind r (fun x => k))
  (at level 10, x name, r at level 100, k at level 200).
Notation "'let*' ( x , y ) ':=' r 'in' k" :=
  (bind r (fun xy => let '(x, y) := xy in k))
  (at level 10, x name, y name, r at level 100, k at level 200).

Record state := mk_state {
  posIn : Z;
  posOut : Z;
  strOut : list byte;
  trace : list event
}.

Definition set_posIn (v : Z) (st : state) : state :=
  mk_state v (posOut st) (strOut st) (trace st).

Definition set_posOut (v : Z) (st : state) : state :=
  mk_state (posIn st) v (strOut st) (trace st).

Definition record (e : event) (st : state) : state :=
  mk_state (posIn st) (posOut st) (strOut st) (trace st ++ [e]).

(** [strIn[i]]; there is no value to go on with when [i] is outside the
    compressed string. *)
Definition load_strIn (strIn : list byte) (i : Z) (st : state)
  : result (byte * state) :=
  match lookupZ strIn i with
  | Some b => Ok (b, record (LoadIn i) st)
  | None => Err LoadOutOfBounds
  end.

(** The byte at address [a] of the [symbol] array. *)
Definition load_symbol (decoder : fsst_decoder_t) (a : Z) (st : state)
  : result (byte * state) :=
  if (0 <=? a) && (a <? symbol_array_bytes)
  then Ok (word_byte (symbol_at decoder (a / 8)) (a mod 8),
           record (LoadSym a) st)
  else Err LoadOutOfBounds.

(** [strOut[i] = b].  A store outside the caller's buffer lands in
    foreign memory: the buffer keeps its contents and the trace keeps the
    index. *)
Definition store (i : Z) (b : byte) (st : state) : state :=
  mk_state (posIn st) (posOut st)
    (if (0 <=? i) && (i <? lenZ (strOut st))
     then <[Z.to_nat i := b]> (strOut st)
     else strOut st)
    (trace st ++ [Store i b]).

(** ** The decompressor *)

(** [for (; posWrite < endWrite; posWrite++)
       strOut[posWrite] = symbolPointer[posWrite];] *)
Fixpoint copy_loop (fuel : nat) (decoder : fsst_decoder_t)
    (symbolPointer posWrite endWrite : Z) (st : state) : result state :=
  if posWrite <? endWrite then
    match fuel with
    | O => Err OutOfFuel
    | S fuel' =>
        let* (b, st1) := load_symbol decoder (symbolPointer + posWrite) st in
        copy_loop fuel' decoder symbolPointer (wrap (posWrite + 1)) endWrite
          (store posWrite b st1)
    end
  else Ok st.

(** The symbol branch.  [symbolPointer] is the address
    [&symbol[code] - posWrite], relative to the start of the [symbol]
    array. *)
Definition expand_symbol (decoder : fsst_decoder_t) (size code : Z)
    (st : state) : result state :=
  let posWrite := posOut st in
  let endWrite := wrap (posOut st + len_at decoder code) in
  let symbolPointer := 8 * code - posWrite in
  let st := set_posOut endWrite st in
  let endWrite := if posOut st >? size then size else endWrite in
  copy_loop (Z.to_nat (endWrite - posWrite)) decoder
    symbolPointer posWrite endWrite st.

(** The escape branch. *)
Definition expand_escape (strIn : list byte) (size : Z) (st : state)
  : result state :=
  let* st1 := (if posOut st <? size
               then let* (b, st') := load_strIn strIn (posIn st) st in
                    Ok (store (posOut st') b st')
               else Ok st) in
  Ok (set_posOut (wrap (posOut st1 + 1))
        (set_posIn (wrap (posIn st1 + 1)) st1)).

(** One iteration of the [while] loop. *)
Definition loop_body (decoder : fsst_decoder_t) (strIn : list byte)
    (size : Z) (st : state) : result state :=
  let* (c, st1) := load_strIn strIn (posIn st) st in
  let st2 := set_posIn (wrap (posIn st1 + 1)) st1 in
  let code := Z_of_byte c in
  if code <? FSST_ESC
  then expand_symbol decoder size code st2
  else expand_escape strIn size st2.

(** [while (posIn < lenIn) ...] *)
Fixpoint while_loop (fuel : nat) (decoder : fsst_decoder_t) (lenIn : Z)
    (strIn : list byte) (size : Z) (st : state) : result state :=
  if posIn st <? lenIn then
    match fuel with
    | O => Err OutOfFuel
    | S fuel' =>
        let* st' := loop_body decoder strIn size st in
        while_loop fuel' decoder lenIn strIn size st'
    end
  else Ok st.

(** [if (posOut >= size && (decoder->zeroTerminated&1)) strOut[size-1] = 0;] *)
Definition terminate (decoder : fsst_decoder_t) (size : Z) (st : state)
  : state :=
  if (posOut st >=? size) && zt_bit decoder
  then store (wrap (size - 1)) x00 st
  else st.

Definition initial (output : list byte) : state := mk_state 0 0 output [].

(** What a call leaves behind: the value returned, the caller's buffer and
    the memory accesses made. *)
Record outcome := mk_outcome {
  returned : Z;
  buffer : list byte;
  accesses : list event
}.

(** Every iteration consumes at least one byte, so [lenIn] iterations are
    enough. *)
Definition fsst_decompress (decoder : fsst_decoder_t) (lenIn : Z)
    (strIn : list byte) (size : Z) (output : list byte) : result outcome :=
  let* st :=
    while_loop (Z.to_nat lenIn) decoder lenIn strIn size (initial output) in
  let st' := terminate decoder size st in
  Ok (mk_outcome (posOut st') (strOut st') (trace st')).

(** ** The decoder table invariant

    [len[x]] is documented as at most 8: a symbol fits its 8-byte word. *)
Definition table_ok (decoder : fsst_decoder_t) : bool :=
  forallb (fun b => Z_of_byte b <=? 8) (len decoder).

(** ** Compressed strings and what they stand for

    The notions the specification states its properties with. *)

(** A byte of the compressed string that is a code, not [FSST_ESC]. *)
Definition is_code (c : byte) : bool := Z_of_byte c <? FSST_ESC.

(** Every escape is followed by the byte it escapes. *)
Fixpoint well_formed (C : list byte) : bool :=
  match C with
  | [] => true
  | c :: rest =>
      if is_code c then well_formed rest
      else match rest with
           | [] => false
           | _ :: rest' => well_formed rest'
           end
  end.

(** The sum of [len[code]] over the codes plus one per escape. *)
Fixpoint logical_length (decoder : fsst_decoder_t) (C : list byte) : Z :=
  match C with
  | [] => 0
  | c :: rest =>
      if is_code c then len_at decoder (Z_of_byte c) + logical_length decoder rest
      else 1 + match rest with
               | [] => 0
               | _ :: rest' => logical_length decoder rest'
               end
  end.

(** The bytes of the symbol of [code]: the low [len[code]] bytes of its
    word, least significant first. *)
Definition symbol_bytes (decoder : fsst_decoder_t) (code : Z) : list byte :=
  map (fun j => word_byte (symbol_at decoder code) (Z.of_nat j))
      (seq 0 (Z.to_nat (len_at decoder code))).

(** The decompressed string. *)
Fixpoint expand (decoder : fsst_decoder_t) (C : list byte) : list byte :=
  match C with
  | [] => []
  | c :: rest =>
      if is_code c then symbol_bytes decoder (Z_of_byte c) ++ expand decoder rest
      else match rest with
           | [] => []
           | b :: rest' => b :: expand decoder rest'
           end
  end.

(** A buffer [buf] after the string [P] was decompressed into it: the part
    of [P] that fits, then what the buffer held before. *)
Definition overlay (P buf : list byte) : list byte :=
  take (length buf) P ++ drop (length P) buf.

(** ** The clamped copy of the design notes

    For each offset [j] in [[0, min(len[code], size - posOut))], byte [j] of
    the symbol's little-endian word goes to output position [posOut + j]. *)
Fixpoint clamped_copy (n : nat) (decoder : fsst_decoder_t)
    (code posOut j : Z) (st : state) : state :=
  match n with
  | O => st
  | S n' =>
      clamped_copy n' decoder code posOut (j + 1)
        (store (posOut + j) (word_byte (symbol_at decoder code) j)
           (record (LoadSym (8 * code + j)) st))
  end.

Definition expand_symbol_clamped (decoder : fsst_decoder_t) (size code : Z)
    (st : state) : result state :=
  let n := Z.min (len_at decoder code) (size - posOut st) in
  let st' := clamped_copy (Z.to_nat n) decoder code (posOut st) 0 st in
  Ok (set_posOut (wrap (posOut st + len_at decoder code)) st').

Definition loop_body_clamped (decoder : fsst_decoder_t) (strIn : list byte)
    (size : Z) (st : state) : result state :=
  let* (c, st1) := load_strIn strIn (posIn st) st in
  let st2 := set_posIn (wrap (posIn st1 + 1)) st1 in
  let code := Z_of_byte c in
  if code <? FSST_ESC
  then expand_symbol_clamped decoder size code st2
  else expand_escape strIn size st2.

Fixpoint while_loop_clamped (fuel : nat) (decoder : fsst_decoder_t)
    (lenIn : Z) (strIn : list byte) (size : Z) (st : state) : result state :=
  if posIn st <? lenIn then
    match fuel with
    | O => Err OutOfFuel
    | S fuel' =>
        let* st' := loop_body_clamped decoder strIn size st in
        while_loop_clamped fuel' decoder lenIn strIn size st'
    end
  else Ok st.

Definition fsst_decompress_clamped (decoder : fsst_decoder_t) (lenIn : Z)
    (strIn : list byte) (size : Z) (output : list byte) : result outcome :=
  let* st :=
    while_loop_clamped (Z.to_nat lenIn) decoder lenIn strIn size
      (initial output) in
  let st' := terminate decoder size st in
  Ok (mk_outcome (posOut st') (strOut st') (trace st')).

(** ** The loop as a transition system *)

(** [st'] follows [st] by one iteration of the [while] loop. *)
Definition step (decoder : fsst_decoder_t) (lenIn : Z) (strIn : list byte)
    (size : Z) (st st' : state) : Prop :=
  posIn st < lenIn /\ loop_body decoder strIn size st = Ok st'.

Inductive reachable (decoder : fsst_decoder_t) (lenIn : Z)
    (strIn : list byte) (size : Z) (output : list byte) : state -> Prop :=
  | reach_initial : reachable decoder lenIn strIn size output (initial output)
  | reach_step st st' :
      reachable decoder lenIn strIn size output st ->
      step decoder lenIn strIn size st st' ->
      reachable decoder lenIn strIn size output st'.

(** ** Projections of a trace *)

(** The indices of [strIn] loaded, in the order of the loads. *)
Fixpoint in_loads (tr : list event) : list Z :=
  match tr with
  | [] => []
  | LoadIn i :: tr' => i :: in_loads tr'
  | _ :: tr' => in_loads tr'
  end.

(** The addresses of the symbol array loaded. *)
Fixpoint sym_loads (tr : list event) : list Z :=
  match tr with
  | [] => []
  | LoadSym a :: tr' => a :: sym_loads tr'
  | _ :: tr' => sym_loads tr'
  end.

(** The indices of [strOut] stored to. *)
Fixpoint store_indices (tr : list event) : list Z :=
  match tr with
  | [] => []
  | Store i _ :: tr' => i :: store_indices tr'
  | _ :: tr' => store_indices tr'
  end.

(** What holds of every state the loop reaches on a well-formed string
    [C]: the cursors stand after a whole number of units, the buffer holds
    what the units consumed stand for, and no byte of [C] was loaded
    twice. *)
Definition loop_invariant (decoder : fsst_decoder_t) (C output : list byte)
    (st : state) : Prop :=
  exists pre R P,
    C = pre ++ R /\ well_formed R = true
    /\ posIn st = lenZ pre
    /\ posOut st = lenZ P /\ strOut st = overlay P output
    /\ lenZ P + logical_length decoder R = logical_length decoder C
    /\ StronglySorted Z.lt (in_loads (trace st))
    /\ Forall (fun i => 0 <= i < posIn st) (in_loads (trace st)).

(** The effect of the stores of a trace on a buffer. *)
Definition replay_event (buf : list byte) (e : event) : list byte :=
  match e with
  | Store i b =>
      if (0 <=? i) && (i <? lenZ buf) then <[Z.to_nat i := b]> buf else buf
  | _ => buf
  end.

Definition replay (tr : list event) (buf : list byte) : list byte :=
  fold_left replay_event tr buf.

(** ** Two runs side by side *)

(** Two states that differ at most in what their buffers hold. *)
Definition same_shape (st1 st2 : state) : Prop :=
  posIn st1 = posIn st2 /\ posOut st1 = posOut st2
  /\ trace st1 = trace st2
  /\ length (strOut st1) = length (strOut st2).

(** Two results that fail alike or succeed with related values. *)
Definition result_rel {A} (R : A -> A -> Prop) (r1 r2 : result A) : Prop :=
  match r1, r2 with
  | Ok a1, Ok a2 => R a1 a2
  | Err e1, Err e2 => e1 = e2
  | _, _ => False
  end.

(** ** Sample tables and inputs *)

(** Code 5 stands for "he", code 6 for "llo", every other code for ".". *)
Definition sample_decoder (zt : byte) : fsst_decoder_t :=
  mk_decoder zt
    (<[5%nat := x02]> (<[6%nat := x03]> (replicate 255 x01)))
    (<[5%nat := 0x6568]> (<[6%nat := 0x6f6c6c]> (replicate 255 0x2e))).

(** "hello!" *)
Definition sample_input : list byte := [x05; x06; xff; x21].

(** A table that breaks the invariant: the entries of codes 5 and 254 claim
    nine bytes. *)
Definition wide_decoder : fsst_decoder_t :=
  mk_decoder x00
    (<[5%nat := x09]> (<[254%nat := x09]> (replicate 255 x01)))
    (<[5%nat := 0x0807060504030201]> (<[6%nat := 0x99]> (replicate 255 0x2e))).

(** A compressed string that holds only escape units: every byte of [lits]
    behind an escape marker. *)
Definition escape_all (lits : list byte) : list byte :=
  flat_map (fun b => [xff; b]) lits.

(** * Properties *)

Example sample_run :
  fsst_decompress (sample_decoder x00) 4 sample_input 6 (replicate 6 x00)
  = Ok (mk_outcome 6 [x68; x65; x6c; x6c; x6f; x21]
          [LoadIn 0; LoadSym 40; Store 0 x68; LoadSym 41; Store 1 x65;
           LoadIn 1; LoadSym 48; Store 2 x6c; LoadSym 49; Store 3 x6c;
           LoadSym 50; Store 4 x6f;
           LoadIn 2; LoadIn 3; Store 5 x21]).
Proof. vm_compute. reflexivity. Qed.

Example sample_expand :
  expand (sample_decoder x00) sample_input = [x68; x65; x6c; x6c; x6f; x21]
  /\ logical_length (sample_decoder x00) sample_input = 6
  /\ well_formed sample_input = true /\ table_ok (sample_decoder x00) = true.
Proof. vm_compute. auto. Qed.

Example sample_run_truncated_zt :
  fsst_decompress (sample_decoder x01) 4 sample_input 3 (replicate 3 xaa)
  = Ok (mk_outcome 6 [x68; x65; x00]
          [LoadIn 0; LoadSym 40; Store 0 x68; LoadSym 41; Store 1 x65;
           LoadIn 1; LoadSym 48; Store 2 x6c; LoadIn 2; Store 2 x00]).
Proof. vm_compute. reflexivity. Qed.

Example sample_run_clamped :
  fsst_decompress_clamped (sample_decoder x01) 4 sample_input 3 (replicate 3 xaa)
  = fsst_decompress (sample_decoder x01) 4 sample_input 3 (replicate 3 xaa).
Proof. vm_compute. reflexivity. Qed.

(** An escape marker at the end of the string: the byte after it is loaded
    only if there is room for it in the buffer. *)
Example dangling_escape_with_room :
  fsst_decompress (sample_decoder x00) 1 [xff] 3 (replicate 3 xaa)
  = Err LoadOutOfBounds.
Proof. vm_compute. reflexivity. Qed.

Example dangling_escape_without_room :
  fsst_decompress (sample_decoder x00) 1 [xff] 0 []
  = Ok (mk_outcome 1 [] [LoadIn 0]).
Proof. vm_compute. reflexivity. Qed.

(** A symbol longer than its word: the ninth byte comes from the word of
    the next code, and for the last code from outside the table. *)
Example wide_symbol_reads_next_word :
  table_ok wide_decoder = false
  /\ fsst_decompress wide_decoder 1 [x05] 9 (replicate 9 x00)
     = Ok (mk_outcome 9 [x01; x02; x03; x04; x05; x06; x07; x08; x99]
             [LoadIn 0;
              LoadSym 40; Store 0 x01; LoadSym 41; Store 1 x02;
              LoadSym 42; Store 2 x03; LoadSym 43; Store 3 x04;
              LoadSym 44; Store 4 x05; LoadSym 45; Store 5 x06;
              LoadSym 46; Store 6 x07; LoadSym 47; Store 7 x08;
              LoadSym 48; Store 8 x99])
  /\ fsst_decompress wide_decoder 1 [xfe] 9 (replicate 9 x00)
     = Err LoadOutOfBounds.
Proof. vm_compute. auto. Qed.

Example zero_capacity_zt :
  fsst_decompress (sample_decoder x01) 0 [] 0 []
  = Ok (mk_outcome 0 [] [Store 18446744073709551615 x00]).
Proof. vm_compute. reflexivity. Qed.

(** ** Integers, bytes and subscripts *)

Lemma size_modulus_pos : 0 < size_modulus.
Proof. reflexivity. Qed.

Lemma wrap_small z : 0 <= z < size_modulus -> wrap z = z.
Proof. intros Hz. unfold wrap. now apply Z.mod_small. Qed.

Lemma wrap_bounds z : 0 <= wrap z < size_modulus.
Proof. unfold wrap. apply Z.mod_pos_bound, size_modulus_pos. Qed.

Lemma Z_of_byte_bounds b : 0 <= Z_of_byte b < 256.
Proof. unfold Z_of_byte. pose proof (Byte.to_N_bounded b). lia. Qed.

Lemma is_code_bounds c : is_code c = true -> 0 <= Z_of_byte c < 255.
Proof.
  unfold is_code, FSST_ESC. intros H%Z.ltb_lt.
  pose proof (Z_of_byte_bounds c). lia.
Qed.

Lemma not_code_escape c : is_code c = false -> c = xff.
Proof. destruct c; intros H; vm_compute in H; congruence. Qed.

Lemma lenZ_nonneg {A} (l : list A) : 0 <= lenZ l.
Proof. unfold lenZ. lia. Qed.

Lemma lenZ_app {A} (l1 l2 : list A) : lenZ (l1 ++ l2) = lenZ l1 + lenZ l2.
Proof. unfold lenZ. rewrite length_app. lia. Qed.

Lemma lenZ_cons {A} (x : A) (l : list A) : lenZ (x :: l) = 1 + lenZ l.
Proof. unfold lenZ. cbn [length]. lia. Qed.

Lemma lookupZ_of_nat {A} (l : list A) (n : nat) :
  lookupZ l (Z.of_nat n) = l !! n.
Proof.
  unfold lookupZ. destruct (Z.ltb_spec (Z.of_nat n) 0); [lia|].
  now rewrite Nat2Z.id.
Qed.

Lemma lookupZ_middle {A} (pre : list A) (c : A) (rest : list A) :
  lookupZ (pre ++ c :: rest) (lenZ pre) = Some c.
Proof. unfold lenZ. rewrite lookupZ_of_nat. apply list_lookup_middle. reflexivity. Qed.

Lemma lookupZ_end {A} (l : list A) (i : Z) : lenZ l <= i -> lookupZ l i = None.
Proof.
  unfold lookupZ, lenZ. intros Hi. destruct (Z.ltb_spec i 0); [reflexivity|].
  apply lookup_ge_None. lia.
Qed.

Lemma len_at_bounds decoder code : 0 <= len_at decoder code < 256.
Proof. apply Z_of_byte_bounds. Qed.

Lemma table_ok_len decoder code :
  table_ok decoder = true -> 0 <= len_at decoder code <= 8.
Proof.
  unfold table_ok, len_at. intros Hok.
  split; [apply Z_of_byte_bounds|].
  destruct (lookupZ (len decoder) code) as [b|] eqn:Hl; cbn; [|vm_compute; discriminate].
  unfold lookupZ in Hl. destruct (code <? 0); [discriminate|].
  rewrite forallb_forall in Hok.
  apply Z.leb_le, Hok. apply list_elem_of_In. eapply list_elem_of_lookup_2, Hl.
Qed.

(** ** The decompressed string *)

Lemma length_symbol_bytes decoder code :
  length (symbol_bytes decoder code) = Z.to_nat (len_at decoder code).
Proof. unfold symbol_bytes. now rewrite length_map, length_seq. Qed.

Lemma lenZ_symbol_bytes decoder code :
  lenZ (symbol_bytes decoder code) = len_at decoder code.
Proof.
  unfold lenZ. rewrite length_symbol_bytes.
  pose proof (len_at_bounds decoder code). lia.
Qed.

Lemma lookup_symbol_bytes decoder code (j : nat) :
  (j < Z.to_nat (len_at decoder code))%nat ->
  symbol_bytes decoder code !! j
  = Some (word_byte (symbol_at decoder code) (Z.of_nat j)).
Proof.
  intros Hj. unfold symbol_bytes.
  rewrite list_lookup_fmap_Some. exists j. split; [reflexivity|].
  apply lookup_seq. lia.
Qed.

(** Induction over the units of a compressed string. *)
Lemma units_ind (P : list byte -> Prop) :
  P [] ->
  (forall c rest, is_code c = true -> P rest -> P (c :: rest)) ->
  (forall c, is_code c = false -> P [c]) ->
  (forall c b rest, is_code c = false -> P rest -> P (c :: b :: rest)) ->
  forall C, P C.
Proof.
  intros Hnil Hcode Hdangling Hesc C.
  induction C as [C IH] using (induction_ltof1 _ (@length _)).
  unfold ltof in IH.
  destruct C as [|c rest]; [exact Hnil|].
  destruct (is_code c) eqn:Hc.
  - apply Hcode; [exact Hc|]. apply IH. cbn. lia.
  - destruct rest as [|b rest]; [now apply Hdangling|].
    apply Hesc; [exact Hc|]. apply IH. cbn. lia.
Qed.

Lemma logical_length_nonneg decoder C : 0 <= logical_length decoder C.
Proof.
  induction C as [|c rest Hc IH|c Hc|c b rest Hc IH] using units_ind;
    cbn [logical_length]; rewrite ?Hc; try lia.
  pose proof (len_at_bounds decoder (Z_of_byte c)). lia.
Qed.

Lemma length_expand decoder C :
  well_formed C = true -> lenZ (expand decoder C) = logical_length decoder C.
Proof.
  induction C as [|c rest Hc IH|c Hc|c b rest Hc IH] using units_ind;
    cbn [well_formed expand logical_length]; rewrite ?Hc; try discriminate.
  - reflexivity.
  - intros Hwf. rewrite lenZ_app, IH by exact Hwf.
    unfold lenZ at 1. rewrite length_symbol_bytes.
    pose proof (len_at_bounds decoder (Z_of_byte c)). lia.
  - intros Hwf. rewrite lenZ_cons, IH by exact Hwf. reflexivity.
Qed.

(** A string whose last byte is not the escape marker is well formed. *)
Lemma last_not_escape_well_formed C :
  last C <> Some xff -> well_formed C = true.
Proof.
  induction C as [|c rest Hc IH|c Hc|c b rest Hc IH] using units_ind;
    cbn [well_formed]; rewrite ?Hc; intros Hlast.
  - reflexivity.
  - apply IH. intros Hr. apply Hlast. destruct rest; [discriminate|exact Hr].
  - exfalso. apply Hlast. now rewrite (not_code_escape c Hc).
  - apply IH. intros Hr. apply Hlast. destruct rest; [discriminate|exact Hr].
Qed.

(** ** Buffers *)

Lemma length_overlay P buf : length (overlay P buf) = length buf.
Proof. unfold overlay. rewrite length_app, length_take, length_drop. lia. Qed.

Lemma lenZ_overlay P buf : lenZ (overlay P buf) = lenZ buf.
Proof. unfold lenZ. now rewrite length_overlay. Qed.

Lemma lookup_overlay P buf (i : nat) :
  overlay P buf !! i
  = if decide (i < length P /\ i < length buf)%nat then P !! i else buf !! i.
Proof.
  unfold overlay. destruct (decide (i < length P /\ i < length buf)%nat) as [[H1 H2]|Hn].
  - rewrite lookup_app_l by (rewrite length_take; lia).
    now apply lookup_take_lt.
  - destruct (decide (i < length buf)%nat) as [Hb|Hb].
    + rewrite lookup_app_r by (rewrite length_take; lia).
      rewrite length_take, lookup_drop. f_equal. lia.
    + rewrite (proj2 (lookup_ge_None buf i)) by lia.
      apply lookup_ge_None. rewrite length_app, length_take, length_drop. lia.
Qed.

Lemma overlay_nil buf : overlay [] buf = buf.
Proof. unfold overlay. now rewrite take_nil, drop_0. Qed.

(** Storing the next byte of the string while there is room. *)
Lemma overlay_snoc P buf b :
  (length P < length buf)%nat ->
  <[length P := b]> (overlay P buf) = overlay (P ++ [b]) buf.
Proof.
  intros Hroom. apply list_eq. intros i.
  rewrite lookup_overlay, length_app. cbn [length].
  destruct (decide (i = length P)) as [->|Hi].
  - rewrite list_lookup_insert_eq by (rewrite length_overlay; lia).
    rewrite decide_True by lia.
    now rewrite lookup_app_r, Nat.sub_diag by lia.
  - rewrite list_lookup_insert_ne by congruence.
    rewrite lookup_overlay.
    destruct (decide (i < length P /\ i < length buf)%nat) as [[H1 H2]|Hn].
    + rewrite decide_True by lia. now rewrite lookup_app_l by lia.
    + rewrite decide_False by lia. reflexivity.
Qed.

(** What does not fit is dropped. *)
Lemma overlay_beyond P X Y buf :
  (length buf <= length (P ++ X))%nat ->
  overlay (P ++ X) buf = overlay (P ++ X ++ Y) buf.
Proof.
  intros Hfull. apply list_eq. intros i. rewrite !lookup_overlay.
  rewrite app_assoc, (length_app (P ++ X) Y).
  destruct (decide (i < length (P ++ X) /\ i < length buf)%nat) as [[H1 H2]|Hn].
  - rewrite decide_True by lia. now rewrite (lookup_app_l (P ++ X)) by lia.
  - rewrite decide_False by lia. reflexivity.
Qed.

Lemma store_inside i b st :
  0 <= i < lenZ (strOut st) ->
  strOut (store i b st) = <[Z.to_nat i := b]> (strOut st).
Proof.
  intros Hi. unfold store. cbn [strOut].
  destruct (Z.leb_spec 0 i), (Z.ltb_spec i (lenZ (strOut st))); cbn; try lia.
  reflexivity.
Qed.

Lemma store_outside i b st :
  lenZ (strOut st) <= i -> strOut (store i b st) = strOut st.
Proof.
  intros Hi. unfold store. cbn [strOut].
  destruct (Z.ltb_spec i (lenZ (strOut st))); [lia|].
  now rewrite andb_false_r.
Qed.

(** ** The copy loop *)

Lemma copy_loop_done fuel decoder symbolPointer posWrite endWrite st :
  endWrite <= posWrite ->
  copy_loop fuel decoder symbolPointer posWrite endWrite st = Ok st.
Proof.
  intros Hle. destruct fuel; cbn [copy_loop];
    destruct (Z.ltb_spec posWrite endWrite); (lia || reflexivity).
Qed.

(** The byte at offset [j] of the word of [code], for a symbol that fits
    its word. *)
Lemma load_symbol_word decoder code j st :
  0 <= code < 255 -> 0 <= j < 8 ->
  load_symbol decoder (8 * code + j) st
  = Ok (word_byte (symbol_at decoder code) j, record (LoadSym (8 * code + j)) st).
Proof.
  intros Hc Hj. unfold load_symbol, symbol_array_bytes.
  destruct (Z.leb_spec 0 (8 * code + j)), (Z.ltb_spec (8 * code + j) (255 * 8));
    cbn; try lia.
  replace ((8 * code + j) / 8) with code by (apply Z.div_unique with j; lia).
  replace ((8 * code + j) mod 8) with j by (apply Z.mod_unique with code; lia).
  reflexivity.
Qed.

(** [k] more iterations after [j] bytes of the symbol were stored. *)
Lemma copy_loop_spec decoder code P buf :
  0 <= code < 255 -> len_at decoder code <= 8 ->
  forall (k j fuel : nat) st,
    (j + k <= length (symbol_bytes decoder code))%nat ->
    (length P + j + k <= length buf)%nat ->
    lenZ P + Z.of_nat (j + k) < size_modulus ->
    (k <= fuel)%nat ->
    strOut st = overlay (P ++ take j (symbol_bytes decoder code)) buf ->
    exists st',
      copy_loop fuel decoder (8 * code - lenZ P)
        (lenZ P + Z.of_nat j) (lenZ P + Z.of_nat (j + k)) st = Ok st'
      /\ posIn st' = posIn st /\ posOut st' = posOut st
      /\ strOut st' = overlay (P ++ take (j + k) (symbol_bytes decoder code)) buf.
Proof.
  intros Hcode Hlen. induction k as [|k IH]; intros j fuel st Hsym Hroom Hmax Hfuel Hbuf.
  - exists st. rewrite Nat.add_0_r. rewrite copy_loop_done by lia. auto.
  - destruct fuel as [|fuel]; [lia|]. cbn [copy_loop].
    destruct (Z.ltb_spec (lenZ P + Z.of_nat j) (lenZ P + Z.of_nat (j + S k))); [|lia].
    rewrite length_symbol_bytes in Hsym.
    replace (8 * code - lenZ P + (lenZ P + Z.of_nat j))
      with (8 * code + Z.of_nat j) by lia.
    rewrite load_symbol_word by lia. cbn [bind].
    pose proof (lenZ_nonneg P) as HP.
    rewrite wrap_small by lia.
    set (b := word_byte (symbol_at decoder code) (Z.of_nat j)).
    set (st1 := store _ b _).
    destruct (IH (S j) fuel st1) as (st' & Hrun & Hin & Hout & Hstr).
    + rewrite length_symbol_bytes. lia.
    + lia.
    + lia.
    + lia.
    + subst st1. rewrite store_inside.
      * cbn [record strOut]. rewrite Hbuf.
        rewrite (take_S_r _ _ b) by (apply lookup_symbol_bytes; lia).
        rewrite app_assoc. rewrite <- overlay_snoc.
        -- f_equal. rewrite length_app, length_take, length_symbol_bytes.
           unfold lenZ. lia.
        -- rewrite length_app, length_take, length_symbol_bytes. lia.
      * cbn [record strOut]. rewrite Hbuf. unfold lenZ in *.
        rewrite length_overlay. lia.
    + exists st'.
      replace (lenZ P + Z.of_nat (S j)) with (lenZ P + Z.of_nat j + 1) in Hrun by lia.
      replace (S j + k)%nat with (j + S k)%nat in * by lia.
      rewrite Hrun. subst st1. cbn in Hin, Hout. auto.
Qed.

Lemma overlay_full P Y buf :
  (length buf <= length P)%nat -> overlay (P ++ Y) buf = overlay P buf.
Proof.
  intros Hfull. pose proof (overlay_beyond P [] Y buf) as H.
  rewrite app_nil_r in H. cbn [app] in H. symmetry. now apply H.
Qed.

(** ** One iteration *)

Lemma expand_symbol_spec decoder code P buf st :
  0 <= code < 255 -> len_at decoder code <= 8 ->
  posOut st = lenZ P -> strOut st = overlay P buf ->
  lenZ P + len_at decoder code < size_modulus ->
  exists st',
    expand_symbol decoder (lenZ buf) code st = Ok st'
    /\ posIn st' = posIn st
    /\ posOut st' = lenZ P + len_at decoder code
    /\ strOut st' = overlay (P ++ symbol_bytes decoder code) buf.
Proof.
  intros Hcode Hlen Hout Hbuf Hmax.
  pose proof (lenZ_nonneg P) as HP. pose proof (len_at_bounds decoder code) as Hl.
  unfold expand_symbol. rewrite Hout, wrap_small by lia.
  cbn [set_posOut posOut]. rewrite Z.gtb_ltb.
  set (st0 := set_posOut _ st).
  assert (Hst0 : strOut st0 = overlay (P ++ take 0 (symbol_bytes decoder code)) buf)
    by (cbn [take]; rewrite app_nil_r; exact Hbuf).
  destruct (Z.ltb_spec (lenZ buf) (lenZ P + len_at decoder code)) as [Htrunc|Hfit].
  - destruct (Z.le_gt_cases (lenZ buf) (lenZ P)) as [Hnone|Hsome].
    + rewrite copy_loop_done by lia. exists st0. repeat split; try reflexivity.
      cbn. rewrite Hbuf. symmetry. apply overlay_full. unfold lenZ in *. lia.
    + set (k := Z.to_nat (lenZ buf - lenZ P)).
      destruct (copy_loop_spec decoder code P buf Hcode Hlen k 0%nat k st0)
        as (st' & Hrun & Hin & Hout' & Hstr);
        try (rewrite ?length_symbol_bytes; unfold lenZ in *; lia); [exact Hst0|].
      exists st'. cbn [Nat.add] in Hrun.
      replace (lenZ P + Z.of_nat 0) with (lenZ P) in Hrun by lia.
      replace (lenZ P + Z.of_nat k) with (lenZ buf) in Hrun by lia.
      rewrite Hrun. repeat split; [exact Hin|exact Hout'|].
      rewrite Hstr. cbn [Nat.add].
      rewrite <- (take_drop k (symbol_bytes decoder code)) at 2.
      apply overlay_beyond.
      rewrite length_app, length_take, length_symbol_bytes. unfold lenZ in *. lia.
  - set (k := Z.to_nat (len_at decoder code)).
    destruct (copy_loop_spec decoder code P buf Hcode Hlen k 0%nat
                (Z.to_nat (lenZ P + len_at decoder code - lenZ P)) st0)
      as (st' & Hrun & Hin & Hout' & Hstr);
      try (rewrite ?length_symbol_bytes; unfold lenZ in *; lia); [exact Hst0|].
    exists st'. cbn [Nat.add] in Hrun.
    replace (lenZ P + Z.of_nat 0) with (lenZ P) in Hrun by lia.
    replace (lenZ P + Z.of_nat k) with (lenZ P + len_at decoder code) in Hrun by lia.
    rewrite Hrun. repeat split; [exact Hin|exact Hout'|].
    rewrite Hstr. cbn [Nat.add]. rewrite take_ge; [reflexivity|].
    rewrite length_symbol_bytes. lia.
Qed.

Lemma expand_escape_spec strIn P buf b st :
  lookupZ strIn (posIn st) = Some b ->
  0 <= posIn st -> posIn st + 1 < size_modulus ->
  posOut st = lenZ P -> strOut st = overlay P buf ->
  lenZ P + 1 < size_modulus ->
  exists st',
    expand_escape strIn (lenZ buf) st = Ok st'
    /\ posIn st' = posIn st + 1
    /\ posOut st' = lenZ P + 1
    /\ strOut st' = overlay (P ++ [b]) buf.
Proof.
  intros Hb Hin0 Hin1 Hout Hbuf Hmax.
  pose proof (lenZ_nonneg P) as HP.
  unfold expand_escape, load_strIn. rewrite Hb, Hout.
  destruct (Z.ltb_spec (lenZ P) (lenZ buf)) as [Hroom|Hfull]; cbn [bind].
  - eexists. split; [reflexivity|].
    cbn [record store set_posIn set_posOut posIn posOut strOut].
    rewrite Hout, !wrap_small by lia. repeat split.
    rewrite Hbuf, lenZ_overlay.
    destruct (Z.leb_spec 0 (lenZ P)), (Z.ltb_spec (lenZ P) (lenZ buf)); cbn; try lia.
    unfold lenZ at 1. rewrite Nat2Z.id. apply overlay_snoc. unfold lenZ in *. lia.
  - eexists. split; [reflexivity|]. cbn [set_posIn set_posOut posIn posOut strOut].
    rewrite Hout, !wrap_small by lia. repeat split.
    rewrite Hbuf. symmetry. apply overlay_full. unfold lenZ in *. lia.
Qed.

(** ** The whole loop

    [pre] is the part of the compressed string consumed so far and [P] what
    it stands for; [R] is what remains. *)
Lemma while_loop_spec decoder buf C :
  table_ok decoder = true -> lenZ C < size_modulus ->
  forall R, well_formed R = true ->
  forall pre P st fuel,
    C = pre ++ R ->
    posIn st = lenZ pre -> posOut st = lenZ P -> strOut st = overlay P buf ->
    lenZ P + logical_length decoder R < size_modulus ->
    (length R <= fuel)%nat ->
    exists st',
      while_loop fuel decoder (lenZ C) C (lenZ buf) st = Ok st'
      /\ posIn st' = lenZ C
      /\ posOut st' = lenZ P + logical_length decoder R
      /\ strOut st' = overlay (P ++ expand decoder R) buf.
Proof.
  intros Hok HC R.
  induction R as [|c rest Hc IH|c Hc|c b rest Hc IH] using units_ind;
    cbn [well_formed logical_length expand]; rewrite ?Hc;
    intros Hwf pre P st fuel HCeq Hin Hout Hbuf Hmax Hfuel; try discriminate.
  - exists st. rewrite app_nil_r in *. subst pre.
    destruct fuel; cbn [while_loop]; rewrite Hin, Z.ltb_irrefl;
      repeat split; (exact Hin || lia || exact Hbuf).
  - destruct fuel as [|fuel]; [cbn in Hfuel; lia|]. cbn [while_loop].
    pose proof (lenZ_nonneg pre) as Hpre. pose proof (lenZ_nonneg rest) as Hrest.
    pose proof (logical_length_nonneg decoder rest) as HL.
    pose proof (len_at_bounds decoder (Z_of_byte c)) as Hl.
    assert (HlenC : lenZ C = lenZ pre + 1 + lenZ rest)
      by (rewrite HCeq, lenZ_app, lenZ_cons; lia).
    destruct (Z.ltb_spec (posIn st) (lenZ C)); [|lia].
    assert (Hlk : lookupZ C (lenZ pre) = Some c)
      by (rewrite HCeq; apply lookupZ_middle).
    unfold loop_body, load_strIn. rewrite Hin, Hlk.
    cbn [bind record posIn]. rewrite Hin.
    rewrite wrap_small by lia. fold (is_code c). rewrite Hc.
    set (st2 := set_posIn _ _).
    destruct (expand_symbol_spec decoder (Z_of_byte c) P buf st2)
      as (st3 & Hrun & Hin3 & Hout3 & Hbuf3);
      [now apply is_code_bounds|now apply table_ok_len|exact Hout|exact Hbuf|lia|].
    rewrite Hrun. cbn [bind].
    destruct (IH Hwf (pre ++ [c]) (P ++ symbol_bytes decoder (Z_of_byte c)) st3 fuel)
      as (st' & Hrun' & Hin' & Hout' & Hbuf').
    + now rewrite <- app_assoc.
    + rewrite Hin3. subst st2. cbn. rewrite lenZ_app. unfold lenZ. cbn. lia.
    + rewrite Hout3, lenZ_app. unfold lenZ at 3. rewrite length_symbol_bytes. lia.
    + exact Hbuf3.
    + rewrite lenZ_app. unfold lenZ at 2. rewrite length_symbol_bytes. lia.
    + cbn in Hfuel. lia.
    + exists st'. rewrite Hrun'. repeat split; [exact Hin'| |].
      * rewrite Hout', lenZ_app. unfold lenZ at 2. rewrite length_symbol_bytes. lia.
      * rewrite Hbuf'. now rewrite <- app_assoc.
  - destruct fuel as [|fuel]; [cbn in Hfuel; lia|]. cbn [while_loop].
    pose proof (lenZ_nonneg pre) as Hpre. pose proof (lenZ_nonneg rest) as Hrest.
    pose proof (logical_length_nonneg decoder rest) as HL.
    assert (HlenC : lenZ C = lenZ pre + 2 + lenZ rest)
      by (rewrite HCeq, lenZ_app, !lenZ_cons; lia).
    destruct (Z.ltb_spec (posIn st) (lenZ C)); [|lia].
    assert (Hlk : lookupZ C (lenZ pre) = Some c)
      by (rewrite HCeq; apply lookupZ_middle).
    unfold loop_body, load_strIn. rewrite Hin, Hlk.
    cbn [bind record posIn]. rewrite Hin.
    rewrite wrap_small by lia. fold (is_code c). rewrite Hc.
    set (st2 := set_posIn _ _).
    destruct (expand_escape_spec C P buf b st2)
      as (st3 & Hrun & Hin3 & Hout3 & Hbuf3).
    + subst st2. cbn [set_posIn posIn]. rewrite HCeq.
      replace (pre ++ c :: b :: rest) with ((pre ++ [c]) ++ b :: rest)
        by now rewrite <- app_assoc.
      replace (lenZ pre + 1) with (lenZ (pre ++ [c]))
        by (rewrite lenZ_app; unfold lenZ; cbn; lia).
      apply lookupZ_middle.
    + subst st2. cbn. lia.
    + subst st2. cbn. lia.
    + exact Hout.
    + exact Hbuf.
    + lia.
    + rewrite Hrun. cbn [bind].
      destruct (IH Hwf (pre ++ [c; b]) (P ++ [b]) st3 fuel)
        as (st' & Hrun' & Hin' & Hout' & Hbuf').
      * now rewrite <- app_assoc.
      * rewrite Hin3. subst st2. cbn. rewrite lenZ_app. unfold lenZ. cbn. lia.
      * rewrite Hout3, lenZ_app. unfold lenZ. cbn. lia.
      * exact Hbuf3.
      * rewrite lenZ_app. unfold lenZ in *. cbn. lia.
      * cbn in Hfuel. lia.
      * exists st'. rewrite Hrun'. repeat split; [exact Hin'| |].
        -- rewrite Hout', lenZ_app. unfold lenZ. cbn. lia.
        -- rewrite Hbuf'. now rewrite <- app_assoc.
Qed.

(** ** A call on a well-formed compressed string *)

Section WellFormedRun.

Variable decoder : fsst_decoder_t.
Variable C : list byte.
Variable buf : list byte.

Hypothesis table_valid : table_ok decoder = true.
Hypothesis input_well_formed : well_formed C = true.
Hypothesis input_fits : lenZ C < size_modulus.
Hypothesis output_fits : logical_length decoder C < size_modulus.

Lemma while_loop_run :
  exists st,
    while_loop (Z.to_nat (lenZ C)) decoder (lenZ C) C (lenZ buf) (initial buf)
    = Ok st
    /\ posIn st = lenZ C
    /\ posOut st = logical_length decoder C
    /\ strOut st = overlay (expand decoder C) buf.
Proof.
  destruct (while_loop_spec decoder buf C table_valid input_fits C
              input_well_formed [] [] (initial buf) (Z.to_nat (lenZ C)))
    as (st & Hrun & Hin & Hout & Hbuf);
    try reflexivity.
  - cbn. now rewrite overlay_nil.
  - exact output_fits.
  - unfold lenZ. lia.
  - exists st. repeat split; assumption.
Qed.

Lemma fsst_decompress_run :
  exists st,
    while_loop (Z.to_nat (lenZ C)) decoder (lenZ C) C (lenZ buf) (initial buf)
    = Ok st
    /\ strOut st = overlay (expand decoder C) buf
    /\ fsst_decompress decoder (lenZ C) C (lenZ buf) buf
       = Ok (mk_outcome (logical_length decoder C)
               (if (lenZ buf <=? logical_length decoder C) && zt_bit decoder
                then <[Z.to_nat (lenZ buf - 1) := x00]>
                       (overlay (expand decoder C) buf)
                else overlay (expand decoder C) buf)
               (if (lenZ buf <=? logical_length decoder C) && zt_bit decoder
                then trace st ++ [Store (wrap (lenZ buf - 1)) x00]
                else trace st)).
Proof.
  destruct while_loop_run as (st & Hrun & _ & Hout & Hbuf).
  exists st. split; [exact Hrun|]. split; [exact Hbuf|].
  unfold fsst_decompress. rewrite Hrun. cbn [bind]. unfold terminate.
  rewrite Hout, Z.geb_leb.
  destruct ((lenZ buf <=? logical_length decoder C) && zt_bit decoder) eqn:Hforce;
    [|now rewrite Hout, Hbuf].
  apply andb_prop in Hforce as [Hle%Z.leb_le _].
  cbn [store posOut strOut trace]. rewrite Hout. do 2 f_equal.
  rewrite Hbuf, lenZ_overlay.
  pose proof (lenZ_nonneg buf) as Hsize.
  destruct (Z.eq_dec (lenZ buf) 0) as [Hzero|Hpos].
  - assert (Hempty : overlay (expand decoder C) buf = []).
    { apply nil_length_inv. rewrite length_overlay. unfold lenZ in Hzero. lia. }
    rewrite Hempty. destruct (_ && _); reflexivity.
  - rewrite wrap_small by lia.
    destruct (Z.leb_spec 0 (lenZ buf - 1)), (Z.ltb_spec (lenZ buf - 1) (lenZ buf));
      cbn; try lia.
    reflexivity.
Qed.

End WellFormedRun.

(** ** Traces *)

Lemma in_loads_app tr1 tr2 : in_loads (tr1 ++ tr2) = in_loads tr1 ++ in_loads tr2.
Proof.
  induction tr1 as [|[i|a|i b] tr1 IH]; cbn [app in_loads]; rewrite ?IH; reflexivity.
Qed.

Lemma sym_loads_app tr1 tr2 : sym_loads (tr1 ++ tr2) = sym_loads tr1 ++ sym_loads tr2.
Proof.
  induction tr1 as [|[i|a|i b] tr1 IH]; cbn [app sym_loads]; rewrite ?IH; reflexivity.
Qed.

Lemma store_indices_app tr1 tr2 :
  store_indices (tr1 ++ tr2) = store_indices tr1 ++ store_indices tr2.
Proof.
  induction tr1 as [|[i|a|i b] tr1 IH]; cbn [app store_indices]; rewrite ?IH; reflexivity.
Qed.

Lemma length_store i b st : length (strOut (store i b st)) = length (strOut st).
Proof.
  unfold store. cbn [strOut]. destruct (_ && _); [apply length_insert|reflexivity].
Qed.

Lemma wrap_le z : 0 <= z -> wrap z <= z.
Proof. intros Hz. unfold wrap. apply Z.mod_le; [exact Hz|apply size_modulus_pos]. Qed.

(** What an expansion leaves of a state, and what it adds to the trace. *)
Lemma copy_loop_trace decoder symbolPointer endWrite :
  endWrite < size_modulus ->
  forall fuel posWrite st st',
    0 <= posWrite ->
    copy_loop fuel decoder symbolPointer posWrite endWrite st = Ok st' ->
    posIn st' = posIn st /\ posOut st' = posOut st
    /\ length (strOut st') = length (strOut st)
    /\ exists new,
         trace st' = trace st ++ new
         /\ in_loads new = []
         /\ Forall (fun i => posWrite <= i < endWrite) (store_indices new)
         /\ Forall (fun a => symbolPointer + posWrite <= a < symbolPointer + endWrite)
              (sym_loads new).
Proof.
  intros Hend. induction fuel as [|fuel IH]; intros posWrite st st' Hpos Hrun;
    cbn [copy_loop] in Hrun; destruct (Z.ltb_spec posWrite endWrite) as [Hlt|Hge];
    try discriminate.
  - injection Hrun as <-. repeat split. exists []. now rewrite app_nil_r.
  - unfold load_symbol in Hrun. destruct (_ && _); [|discriminate]. cbn [bind] in Hrun.
    rewrite wrap_small in Hrun by lia.
    apply IH in Hrun as (Hin & Hout & Hlen & new & Htr & Hloads & Hst & Hsym); [|lia].
    rewrite length_store in Hlen. cbn in Hin, Hout, Hlen, Htr.
    repeat split; try assumption.
    exists (LoadSym (symbolPointer + posWrite) :: Store posWrite (word_byte
              (symbol_at decoder ((symbolPointer + posWrite) / 8))
              ((symbolPointer + posWrite) mod 8)) :: new).
    rewrite Htr, <- !app_assoc. cbn [app in_loads store_indices sym_loads].
    repeat split; [exact Hloads| |].
    + constructor; [lia|]. eapply Forall_impl; [exact Hst|]. cbn. intros; lia.
    + constructor; [lia|]. eapply Forall_impl; [exact Hsym|]. cbn. intros; lia.
  - injection Hrun as <-. repeat split. exists []. now rewrite app_nil_r.
Qed.

Lemma expand_symbol_trace decoder size code st st' :
  0 <= posOut st ->
  expand_symbol decoder size code st = Ok st' ->
  posIn st' = posIn st
  /\ posOut st' = wrap (posOut st + len_at decoder code)
  /\ length (strOut st') = length (strOut st)
  /\ exists new,
       trace st' = trace st ++ new
       /\ in_loads new = []
       /\ Forall (fun i => 0 <= i < size) (store_indices new)
       /\ Forall (fun a => 8 * code <= a < 8 * code + len_at decoder code)
            (sym_loads new).
Proof.
  intros Hpos Hrun. unfold expand_symbol in Hrun. cbn [set_posOut posOut] in Hrun.
  pose proof (len_at_bounds decoder code) as Hl.
  pose proof (wrap_bounds (posOut st + len_at decoder code)) as Hw.
  pose proof (wrap_le (posOut st + len_at decoder code) ltac:(lia)) as Hwle.
  rewrite Z.gtb_ltb in Hrun.
  set (endWrite := if _ <? _ then _ else _) in Hrun.
  assert (Hend : endWrite <= size /\ endWrite <= wrap (posOut st + len_at decoder code))
    by (subst endWrite;
        destruct (Z.ltb_spec size (wrap (posOut st + len_at decoder code))); lia).
  apply copy_loop_trace in Hrun as (Hin & Hout & Hlen & new & Htr & Hloads & Hst & Hsym);
    [|lia|lia].
  cbn in Hin, Hout, Hlen, Htr. repeat split; try assumption.
  exists new. repeat split; try assumption.
  - eapply Forall_impl; [exact Hst|]. cbn. intros; lia.
  - eapply Forall_impl; [exact Hsym|]. cbn. intros; lia.
Qed.

Lemma expand_escape_trace strIn size st st' :
  0 <= posOut st ->
  expand_escape strIn size st = Ok st' ->
  posIn st' = wrap (posIn st + 1)
  /\ posOut st' = wrap (posOut st + 1)
  /\ length (strOut st') = length (strOut st)
  /\ exists new,
       trace st' = trace st ++ new
       /\ (in_loads new = []
           \/ in_loads new = [posIn st] /\ is_Some (lookupZ strIn (posIn st)))
       /\ Forall (fun i => 0 <= i < size) (store_indices new)
       /\ sym_loads new = [].
Proof.
  intros Hpos Hrun. unfold expand_escape in Hrun.
  destruct (Z.ltb_spec (posOut st) size) as [Hroom|Hfull].
  - unfold load_strIn in Hrun.
    destruct (lookupZ strIn (posIn st)) as [b|] eqn:Hb; [|discriminate].
    cbn [bind] in Hrun. injection Hrun as <-.
    cbn [set_posIn set_posOut store record posIn posOut strOut trace].
    repeat split.
    + destruct (_ && _); [apply length_insert|reflexivity].
    + exists [LoadIn (posIn st); Store (posOut st) b]. rewrite <- app_assoc.
      cbn [app in_loads store_indices sym_loads]. repeat split.
      * right. split; [reflexivity|]. now exists b.
      * constructor; [lia|constructor].
  - cbn [bind] in Hrun. injection Hrun as <-. cbn. repeat split.
    exists []. rewrite app_nil_r. cbn. repeat split; [now left|constructor].
Qed.

(** The three ways an iteration can go. *)
Lemma loop_body_code decoder strIn size st c :
  lookupZ strIn (posIn st) = Some c -> is_code c = true ->
  loop_body decoder strIn size st
  = expand_symbol decoder size (Z_of_byte c)
      (set_posIn (wrap (posIn st + 1)) (record (LoadIn (posIn st)) st)).
Proof.
  intros Hc Hcode. unfold loop_body, load_strIn. rewrite Hc. cbn [bind].
  fold (is_code c). now rewrite Hcode.
Qed.

Lemma loop_body_escape decoder strIn size st c :
  lookupZ strIn (posIn st) = Some c -> is_code c = false ->
  loop_body decoder strIn size st
  = expand_escape strIn size
      (set_posIn (wrap (posIn st + 1)) (record (LoadIn (posIn st)) st)).
Proof.
  intros Hc Hcode. unfold loop_body, load_strIn. rewrite Hc. cbn [bind].
  fold (is_code c). now rewrite Hcode.
Qed.

Lemma loop_body_overread decoder strIn size st :
  lookupZ strIn (posIn st) = None ->
  loop_body decoder strIn size st = Err LoadOutOfBounds.
Proof. intros Hc. unfold loop_body, load_strIn. now rewrite Hc. Qed.

(** ** Memory accesses stay inside the objects *)

Lemma loop_body_bounds decoder strIn size st st' :
  0 <= posOut st ->
  loop_body decoder strIn size st = Ok st' ->
  0 <= posOut st'
  /\ length (strOut st') = length (strOut st)
  /\ exists new,
       trace st' = trace st ++ new
       /\ Forall (fun i => 0 <= i < size) (store_indices new)
       /\ Forall (fun a => exists code, 0 <= code < 255
                    /\ 8 * code <= a < 8 * code + len_at decoder code)
            (sym_loads new).
Proof.
  intros Hpos Hrun.
  destruct (lookupZ strIn (posIn st)) as [c|] eqn:Hc;
    [|rewrite loop_body_overread in Hrun by exact Hc; discriminate].
  destruct (is_code c) eqn:Hcode.
  - rewrite (loop_body_code _ _ _ _ c Hc Hcode) in Hrun.
    apply expand_symbol_trace in Hrun as (_ & Hout & Hlen & new & Htr & _ & Hst & Hsym);
      [|exact Hpos].
    cbn in Hout, Hlen, Htr. split; [rewrite Hout; apply wrap_bounds|].
    split; [exact Hlen|].
    exists (LoadIn (posIn st) :: new). rewrite Htr, <- app_assoc.
    repeat split; [exact Hst|].
    eapply Forall_impl; [exact Hsym|]. cbn. intros a Ha.
    exists (Z_of_byte c). split; [now apply is_code_bounds|exact Ha].
  - rewrite (loop_body_escape _ _ _ _ c Hc Hcode) in Hrun.
    apply expand_escape_trace in Hrun as (_ & Hout & Hlen & new & Htr & _ & Hst & Hsym);
      [|exact Hpos].
    cbn in Hout, Hlen, Htr. split; [rewrite Hout; apply wrap_bounds|].
    split; [exact Hlen|].
    exists (LoadIn (posIn st) :: new). rewrite Htr, <- app_assoc.
    repeat split; [exact Hst|].
    cbn [sym_loads]. rewrite Hsym. constructor.
Qed.

Lemma while_loop_bounds decoder lenIn strIn size :
  forall fuel st st',
    0 <= posOut st ->
    while_loop fuel decoder lenIn strIn size st = Ok st' ->
    0 <= posOut st'
    /\ length (strOut st') = length (strOut st)
    /\ exists new,
         trace st' = trace st ++ new
         /\ Forall (fun i => 0 <= i < size) (store_indices new)
         /\ Forall (fun a => exists code, 0 <= code < 255
                      /\ 8 * code <= a < 8 * code + len_at decoder code)
              (sym_loads new).
Proof.
  induction fuel as [|fuel IH]; intros st st' Hpos Hrun; cbn [while_loop] in Hrun;
    destruct (posIn st <? lenIn); try discriminate;
    try (injection Hrun as <-; repeat split; [exact Hpos|];
         exists []; rewrite app_nil_r; repeat constructor).
  destruct (loop_body decoder strIn size st) as [st1|] eqn:Hbody; [|discriminate].
  cbn [bind] in Hrun.
  apply loop_body_bounds in Hbody as (Hpos1 & Hlen1 & new1 & Htr1 & Hst1 & Hsym1);
    [|exact Hpos].
  apply IH in Hrun as (Hpos' & Hlen' & new & Htr & Hst & Hsym); [|exact Hpos1].
  split; [exact Hpos'|]. split; [congruence|].
  exists (new1 ++ new). rewrite Htr, Htr1, <- app_assoc.
  rewrite store_indices_app, sym_loads_app.
  repeat split; apply Forall_app; auto.
Qed.

(** Every store of a call goes to an index below [size], unless the buffer
    is empty and the terminator is forced. *)
Lemma accesses_in_bounds decoder lenIn strIn size output o :
  fsst_decompress decoder lenIn strIn size output = Ok o ->
  1 <= size \/ zt_bit decoder = false ->
  Forall (fun i => 0 <= i < size) (store_indices (accesses o))
  /\ Forall (fun a => exists code, 0 <= code < 255
               /\ 8 * code <= a < 8 * code + len_at decoder code)
       (sym_loads (accesses o)).
Proof.
  unfold fsst_decompress. intros Hrun Hsafe.
  destruct (while_loop _ _ _ _ _ _) as [st|] eqn:Hloop; [|discriminate].
  cbn [bind] in Hrun. injection Hrun as <-. cbn [accesses].
  apply while_loop_bounds in Hloop as (_ & _ & new & Htr & Hst & Hsym);
    [|cbn; lia].
  cbn in Htr. subst new. unfold terminate.
  destruct ((posOut st >=? size) && zt_bit decoder) eqn:Hforce; [|now split].
  apply andb_prop in Hforce as [_ Hzt].
  destruct Hsafe as [Hsize|Hoff]; [|congruence].
  cbn [store trace]. rewrite store_indices_app, sym_loads_app. cbn.
  rewrite app_nil_r. split; [|exact Hsym].
  apply Forall_app. split; [exact Hst|]. constructor; [|constructor].
  pose proof (wrap_bounds (size - 1)). pose proof (wrap_le (size - 1)). lia.
Qed.

(** ** The loop as a transition system *)

Lemma StronglySorted_snoc (l : list Z) (x : Z) :
  StronglySorted Z.lt l -> Forall (fun i => i < x) l ->
  StronglySorted Z.lt (l ++ [x]).
Proof.
  induction 1 as [|y l Hs IH Hy]; intros Hx; cbn [app].
  - constructor; constructor.
  - apply Forall_cons_1 in Hx as [Hyx Hx]. constructor; [now apply IH|].
    apply Forall_app. split; [exact Hy|]. constructor; [exact Hyx|constructor].
Qed.

Lemma invariant_initial decoder C output :
  well_formed C = true -> loop_invariant decoder C output (initial output).
Proof.
  intros Hwf. exists [], C, []. cbn. rewrite overlay_nil.
  repeat split; try assumption; constructor.
Qed.

Section Transitions.

Variable decoder : fsst_decoder_t.
Variable C : list byte.
Variable output : list byte.

Hypothesis table_valid : table_ok decoder = true.
Hypothesis input_fits : lenZ C < size_modulus.
Hypothesis output_fits : logical_length decoder C < size_modulus.

(** While input remains the next iteration runs, keeps the invariant,
    moves the input cursor forward and never moves the output cursor
    back. *)
Lemma invariant_progress st :
  loop_invariant decoder C output st ->
  posIn st < lenZ C ->
  exists st',
    loop_body decoder C (lenZ output) st = Ok st'
    /\ loop_invariant decoder C output st'
    /\ posIn st < posIn st' <= lenZ C
    /\ posOut st <= posOut st'.
Proof.
  intros (pre & R & P & HC & Hwf & Hin & Hout & Hbuf & HL & Hsorted & Hbelow) Hmore.
  pose proof (lenZ_nonneg pre) as Hpre. pose proof (lenZ_nonneg P) as HP.
  destruct R as [|c rest].
  { rewrite HC, app_nil_r in Hmore. lia. }
  assert (Hlk : lookupZ C (posIn st) = Some c)
    by (rewrite Hin, HC; apply lookupZ_middle).
  assert (HlenC : lenZ C = lenZ pre + 1 + lenZ rest)
    by (rewrite HC, lenZ_app, lenZ_cons; lia).
  pose proof (lenZ_nonneg rest) as Hrest.
  set (st2 := set_posIn (wrap (posIn st + 1)) (record (LoadIn (posIn st)) st)).
  assert (Hin2 : posIn st2 = lenZ pre + 1)
    by (subst st2; cbn; rewrite Hin; apply wrap_small; lia).
  assert (Hloads2 : in_loads (trace st2) = in_loads (trace st) ++ [posIn st])
    by (subst st2; cbn; now rewrite in_loads_app).
  assert (Hsorted2 : StronglySorted Z.lt (in_loads (trace st2))).
  { rewrite Hloads2. apply StronglySorted_snoc; [exact Hsorted|].
    eapply Forall_impl; [exact Hbelow|]. cbn. intros; lia. }
  assert (Hbelow2 : Forall (fun i => 0 <= i < lenZ pre + 1) (in_loads (trace st2))).
  { rewrite Hloads2. apply Forall_app. split.
    - eapply Forall_impl; [exact Hbelow|]. cbn. intros; lia.
    - constructor; [lia|constructor]. }
  cbn [well_formed logical_length] in Hwf, HL.
  destruct (is_code c) eqn:Hcode.
  - rewrite (loop_body_code _ _ _ _ c Hlk Hcode). fold st2.
    pose proof (len_at_bounds decoder (Z_of_byte c)) as Hl.
    pose proof (logical_length_nonneg decoder rest) as HLrest.
    destruct (expand_symbol_spec decoder (Z_of_byte c) P output st2)
      as (st' & Hrun & Hin' & Hout' & Hbuf');
      [now apply is_code_bounds|now apply table_ok_len|exact Hout|exact Hbuf|lia|].
    exists st'. split; [exact Hrun|].
    apply expand_symbol_trace in Hrun as (_ & _ & _ & new & Htr & Hnew & _);
      [|subst st2; cbn; lia].
    assert (Hloads' : in_loads (trace st') = in_loads (trace st2))
      by (now rewrite Htr, in_loads_app, Hnew, app_nil_r).
    split; [|lia].
    exists (pre ++ [c]), rest, (P ++ symbol_bytes decoder (Z_of_byte c)).
    rewrite <- app_assoc, Hloads', Hin', Hin2, !lenZ_app, lenZ_symbol_bytes.
    repeat split; try assumption; lia.
  - destruct rest as [|b rest']; [discriminate|].
    rewrite (loop_body_escape _ _ _ _ c Hlk Hcode). fold st2.
    pose proof (logical_length_nonneg decoder rest') as HLrest.
    rewrite lenZ_cons in HlenC, Hrest. pose proof (lenZ_nonneg rest') as Hrest'.
    destruct (expand_escape_spec C P output b st2)
      as (st' & Hrun & Hin' & Hout' & Hbuf');
      [|lia|lia|exact Hout|exact Hbuf|lia|].
    { rewrite Hin2, HC.
      replace (pre ++ c :: b :: rest') with ((pre ++ [c]) ++ b :: rest')
        by now rewrite <- app_assoc.
      replace (lenZ pre + 1) with (lenZ (pre ++ [c]))
        by (rewrite lenZ_app; unfold lenZ; cbn; lia).
      apply lookupZ_middle. }
    exists st'. split; [exact Hrun|].
    apply expand_escape_trace in Hrun as (_ & _ & _ & new & Htr & Hnew & _);
      [|subst st2; cbn; lia].
    split; [|lia].
    exists (pre ++ [c; b]), rest', (P ++ [b]).
    rewrite <- app_assoc, Hin', Hin2, !lenZ_app.
    repeat split; try assumption.
    + unfold lenZ. cbn [length]. lia.
    + unfold lenZ in *. cbn [length] in *. lia.
    + rewrite Htr, in_loads_app.
      destruct Hnew as [->|[-> _]]; [now rewrite app_nil_r|].
      apply StronglySorted_snoc; [exact Hsorted2|].
      eapply Forall_impl; [exact Hbelow2|]. cbn beta. intros; lia.
    + rewrite Htr, in_loads_app. apply Forall_app. split.
      * eapply Forall_impl; [exact Hbelow2|]. cbn beta. intros; lia.
      * destruct Hnew as [->|[-> _]]; [constructor|].
        constructor; [lia|constructor].
Qed.

Lemma invariant_step st st' :
  loop_invariant decoder C output st ->
  step decoder (lenZ C) C (lenZ output) st st' ->
  loop_invariant decoder C output st'
  /\ posIn st < posIn st' <= lenZ C
  /\ posOut st <= posOut st'.
Proof.
  intros Hinv [Hmore Hbody].
  destruct (invariant_progress st Hinv Hmore) as (st'' & Hbody' & Hrest).
  rewrite Hbody in Hbody'. injection Hbody' as <-. exact Hrest.
Qed.

Lemma reachable_invariant st :
  well_formed C = true ->
  reachable decoder (lenZ C) C (lenZ output) output st ->
  loop_invariant decoder C output st.
Proof.
  intros Hwf. induction 1 as [|st st' _ IH Hstep].
  - now apply invariant_initial.
  - now apply (invariant_step st st' IH Hstep).
Qed.

End Transitions.

(** The states the loop goes through are the reachable ones. *)
Lemma while_loop_reachable decoder lenIn strIn size output :
  forall fuel st st',
    reachable decoder lenIn strIn size output st ->
    while_loop fuel decoder lenIn strIn size st = Ok st' ->
    reachable decoder lenIn strIn size output st'
    /\ lenIn <= posIn st'.
Proof.
  induction fuel as [|fuel IH]; intros st st' Hreach Hrun; cbn [while_loop] in Hrun;
    destruct (Z.ltb_spec (posIn st) lenIn) as [Hmore|Hdone]; try discriminate;
    try (injection Hrun as <-; now split).
  destruct (loop_body decoder strIn size st) as [st1|] eqn:Hbody; [|discriminate].
  cbn [bind] in Hrun. apply (IH st1 st'); [|exact Hrun].
  eapply reach_step; [exact Hreach|]. now split.
Qed.

(** ** Properties kept by every operation on the state *)

Section Preservation.

Variable Inv : state -> Prop.

Hypothesis Inv_store : forall i b st, Inv st -> Inv (store i b st).
Hypothesis Inv_load_in : forall i st, Inv st -> Inv (record (LoadIn i) st).
Hypothesis Inv_load_sym : forall a st, Inv st -> Inv (record (LoadSym a) st).
Hypothesis Inv_posIn : forall v st, Inv st -> Inv (set_posIn v st).
Hypothesis Inv_posOut : forall v st, Inv st -> Inv (set_posOut v st).

Lemma copy_loop_preserves decoder symbolPointer endWrite :
  forall fuel posWrite st st',
    Inv st ->
    copy_loop fuel decoder symbolPointer posWrite endWrite st = Ok st' ->
    Inv st'.
Proof.
  induction fuel as [|fuel IH]; intros posWrite st st' HI Hrun;
    cbn [copy_loop] in Hrun; destruct (posWrite <? endWrite);
    try discriminate; try (injection Hrun as <-; exact HI).
  unfold load_symbol in Hrun. destruct (_ && _); [|discriminate].
  cbn [bind] in Hrun. eapply IH; [|exact Hrun]. auto.
Qed.

Lemma loop_body_preserves decoder strIn size st st' :
  Inv st -> loop_body decoder strIn size st = Ok st' -> Inv st'.
Proof.
  intros HI Hrun. unfold loop_body, load_strIn in Hrun.
  destruct (lookupZ strIn (posIn st)) as [c|]; [|discriminate].
  cbn [bind] in Hrun. destruct (_ <? FSST_ESC).
  - unfold expand_symbol in Hrun. eapply copy_loop_preserves; [|exact Hrun]. auto.
  - unfold expand_escape, load_strIn in Hrun.
    destruct (_ <? size).
    + destruct (lookupZ strIn _) as [b|]; [|discriminate].
      cbn [bind] in Hrun. injection Hrun as <-. auto 10.
    + cbn [bind] in Hrun. injection Hrun as <-. auto.
Qed.

Lemma while_loop_preserves decoder lenIn strIn size :
  forall fuel st st',
    Inv st -> while_loop fuel decoder lenIn strIn size st = Ok st' -> Inv st'.
Proof.
  induction fuel as [|fuel IH]; intros st st' HI Hrun; cbn [while_loop] in Hrun;
    destruct (posIn st <? lenIn); try discriminate;
    try (injection Hrun as <-; exact HI).
  destruct (loop_body decoder strIn size st) as [st1|] eqn:Hbody; [|discriminate].
  cbn [bind] in Hrun. eapply IH; [|exact Hrun].
  eapply loop_body_preserves; [exact HI|exact Hbody].
Qed.

End Preservation.

(** The buffer is what the stores of the trace make of the buffer the
    caller passed. *)
Lemma replay_snoc tr e buf : replay (tr ++ [e]) buf = replay_event (replay tr buf) e.
Proof. unfold replay. now rewrite fold_left_app. Qed.

Lemma buffer_replay decoder lenIn strIn size output o :
  fsst_decompress decoder lenIn strIn size output = Ok o ->
  buffer o = replay (accesses o) output.
Proof.
  unfold fsst_decompress. intros Hrun.
  destruct (while_loop _ _ _ _ _ _) as [st|] eqn:Hloop; [|discriminate].
  cbn [bind] in Hrun. injection Hrun as <-. cbn [buffer accesses].
  assert (Hst : strOut st = replay (trace st) output).
  { apply (while_loop_preserves (fun st => strOut st = replay (trace st) output))
      in Hloop; try exact Hloop; try reflexivity; try (intros v st0 H0; exact H0).
    - intros i b st0 H0. cbn [store strOut trace]. rewrite replay_snoc.
      cbn [replay_event]. now rewrite <- H0.
    - intros i st0 H0. cbn [record strOut trace]. rewrite replay_snoc. exact H0.
    - intros a st0 H0. cbn [record strOut trace]. rewrite replay_snoc. exact H0. }
  unfold terminate. destruct (_ && _); [|exact Hst].
  cbn [store strOut trace]. rewrite replay_snoc. cbn [replay_event]. now rewrite <- Hst.
Qed.

Lemma length_replay_event buf e : length (replay_event buf e) = length buf.
Proof.
  destruct e as [i|a|i b]; cbn; try reflexivity.
  destruct (_ && _); [apply length_insert|reflexivity].
Qed.

(** Buffers of one length agree, after the same stores, wherever they
    agreed before and wherever a store went. *)
Lemma replay_agree tr :
  forall buf1 buf2 (i : nat),
    length buf1 = length buf2 ->
    buf1 !! i = buf2 !! i \/ In (Z.of_nat i) (store_indices tr) ->
    replay tr buf1 !! i = replay tr buf2 !! i.
Proof.
  induction tr as [|e tr IH]; intros buf1 buf2 i Hlen Hi.
  - destruct Hi as [Hi|[]]. exact Hi.
  - change (replay (e :: tr) ?b) with (replay tr (replay_event b e)).
    apply IH; [now rewrite !length_replay_event|].
    destruct e as [j|a|j b]; cbn [replay_event store_indices] in *; try exact Hi.
    unfold lenZ. rewrite <- Hlen.
    destruct ((0 <=? j) && (j <? Z.of_nat (length buf1))) eqn:Hin.
    + apply andb_prop in Hin as [H0%Z.leb_le Hj%Z.ltb_lt].
      destruct (decide (Z.to_nat j = i)) as [<-|Hne].
      * left. rewrite !list_lookup_insert_eq by lia. reflexivity.
      * rewrite !list_lookup_insert_ne by exact Hne.
        destruct Hi as [Hi|[Hi|Hi]]; [now left|lia|now right].
    + destruct Hi as [Hi|[Hi|Hi]]; [now left| |now right].
      left. apply andb_false_iff in Hin.
      rewrite !(proj2 (lookup_ge_None _ _)); [reflexivity| |];
        destruct Hin as [Hin%Z.leb_gt|Hin%Z.ltb_ge]; lia.
Qed.

(** ** Runs that start from buffers of one length *)

Lemma same_shape_store i b st1 st2 :
  same_shape st1 st2 -> same_shape (store i b st1) (store i b st2).
Proof.
  intros (Hin & Hout & Htr & Hlen). unfold same_shape, store, lenZ. cbn.
  rewrite Hlen, Htr. repeat split; try assumption.
  destruct (_ && _); [now rewrite !length_insert|exact Hlen].
Qed.

Lemma same_shape_record e st1 st2 :
  same_shape st1 st2 -> same_shape (record e st1) (record e st2).
Proof.
  intros (Hin & Hout & Htr & Hlen). unfold same_shape. cbn.
  rewrite Htr. repeat split; assumption.
Qed.

Lemma copy_loop_shape decoder symbolPointer endWrite :
  forall fuel posWrite st1 st2,
    same_shape st1 st2 ->
    result_rel same_shape
      (copy_loop fuel decoder symbolPointer posWrite endWrite st1)
      (copy_loop fuel decoder symbolPointer posWrite endWrite st2).
Proof.
  induction fuel as [|fuel IH]; intros posWrite st1 st2 Hs; cbn [copy_loop];
    destruct (posWrite <? endWrite); cbn; try (exact Hs || reflexivity).
  unfold load_symbol. destruct (_ && _); cbn; [|reflexivity].
  apply IH. now apply same_shape_store, same_shape_record.
Qed.

Lemma loop_body_shape decoder strIn size st1 st2 :
  same_shape st1 st2 ->
  result_rel same_shape
    (loop_body decoder strIn size st1) (loop_body decoder strIn size st2).
Proof.
  intros Hs. pose proof Hs as (Hin & Hout & Htr & Hlen).
  unfold loop_body, load_strIn. rewrite Hin.
  destruct (lookupZ strIn (posIn st2)) as [c|]; cbn [bind result_rel]; [|reflexivity].
  cbn [record posIn]. rewrite Hin.
  set (s1 := set_posIn _ (record _ st1)). set (s2 := set_posIn _ (record _ st2)).
  assert (Hs12 : same_shape s1 s2).
  { subst s1 s2. unfold same_shape. cbn. rewrite Htr. repeat split; assumption. }
  pose proof Hs12 as (Hin' & Hout' & Htr' & Hlen').
  destruct (_ <? FSST_ESC).
  - unfold expand_symbol. rewrite Hout'. apply copy_loop_shape.
    unfold same_shape. cbn. repeat split; assumption.
  - unfold expand_escape, load_strIn. rewrite Hout', Hin'.
    destruct (_ <? size); cbn [bind].
    + destruct (lookupZ strIn _) as [b|]; cbn [bind result_rel]; [|reflexivity].
      cbn [record posOut]. rewrite Hout'.
      pose proof (same_shape_store (posOut s2) b _ _
                    (same_shape_record (LoadIn (posIn s2)) _ _ Hs12))
        as (H1 & H2 & H3 & H4).
      unfold same_shape. cbn [set_posIn set_posOut posIn posOut strOut trace] in *.
      rewrite H1, H2, H3. repeat split; exact H4.
    + cbn [result_rel]. unfold same_shape.
      cbn [set_posIn set_posOut posIn posOut strOut trace].
      rewrite Hin', Hout', Htr'. repeat split; exact Hlen'.
Qed.

Lemma while_loop_shape decoder lenIn strIn size :
  forall fuel st1 st2,
    same_shape st1 st2 ->
    result_rel same_shape
      (while_loop fuel decoder lenIn strIn size st1)
      (while_loop fuel decoder lenIn strIn size st2).
Proof.
  induction fuel as [|fuel IH]; intros st1 st2 Hs; pose proof Hs as (Hin & _);
    cbn [while_loop]; rewrite Hin; destruct (posIn st2 <? lenIn); cbn;
    try (exact Hs || reflexivity).
  pose proof (loop_body_shape decoder strIn size st1 st2 Hs) as Hbody.
  destruct (loop_body decoder strIn size st1) as [s1|e1],
           (loop_body decoder strIn size st2) as [s2|e2]; cbn in Hbody |- *;
    try contradiction; [now apply IH|exact Hbody].
Qed.

(** ** The pointer copy and the clamped copy *)

Lemma clamped_copy_set_posOut n decoder code p v :
  forall j st,
    clamped_copy n decoder code p j (set_posOut v st)
    = set_posOut v (clamped_copy n decoder code p j st).
Proof.
  induction n as [|n IH]; intros j st; cbn [clamped_copy]; [reflexivity|].
  rewrite <- IH. reflexivity.
Qed.

(** [n] iterations of the source loop from offset [j] of the symbol do what
    the clamped copy does. *)
Lemma copy_loop_clamped decoder code p :
  0 <= code < 255 -> 0 <= p ->
  forall (n fuel : nat) j st,
    0 <= j -> j + Z.of_nat n <= 8 ->
    p + j + Z.of_nat n < size_modulus ->
    (n <= fuel)%nat ->
    copy_loop fuel decoder (8 * code - p) (p + j) (p + j + Z.of_nat n) st
    = Ok (clamped_copy n decoder code p j st).
Proof.
  intros Hcode Hp. induction n as [|n IH]; intros fuel j st Hj Hword Hmax Hfuel.
  - rewrite copy_loop_done by lia. reflexivity.
  - destruct fuel as [|fuel]; [lia|]. cbn [copy_loop clamped_copy].
    destruct (Z.ltb_spec (p + j) (p + j + Z.of_nat (S n))); [|lia].
    replace (8 * code - p + (p + j)) with (8 * code + j) by lia.
    rewrite load_symbol_word by lia. cbn [bind].
    rewrite wrap_small by lia.
    replace (p + j + 1) with (p + (j + 1)) by lia.
    replace (p + j + Z.of_nat (S n)) with (p + (j + 1) + Z.of_nat n) by lia.
    apply IH; lia.
Qed.

Lemma expand_symbol_clamped_eq decoder size code st :
  0 <= code < 255 -> len_at decoder code <= 8 ->
  0 <= posOut st -> posOut st + len_at decoder code < size_modulus ->
  expand_symbol decoder size code st = expand_symbol_clamped decoder size code st.
Proof.
  intros Hcode Hlen Hpos Hmax. pose proof (len_at_bounds decoder code) as Hl.
  unfold expand_symbol, expand_symbol_clamped.
  rewrite wrap_small by lia. cbn [set_posOut posOut]. rewrite Z.gtb_ltb.
  rewrite <- clamped_copy_set_posOut.
  set (p := posOut st) in *. set (l := len_at decoder code) in *.
  set (st0 := set_posOut (p + l) st).
  destruct (Z.ltb_spec size (p + l)) as [Htrunc|Hfit].
  - destruct (Z.le_gt_cases size p) as [Hnone|Hsome].
    + rewrite copy_loop_done by lia.
      replace (Z.to_nat (Z.min l (size - p))) with 0%nat by lia. reflexivity.
    + replace (Z.min l (size - p)) with (size - p) by lia.
      pose proof (copy_loop_clamped decoder code p Hcode Hpos
                    (Z.to_nat (size - p)) (Z.to_nat (size - p)) 0 st0) as Hcopy.
      replace (p + 0 + Z.of_nat (Z.to_nat (size - p))) with size in Hcopy by lia.
      replace (p + 0) with p in Hcopy by lia.
      apply Hcopy; lia.
  - replace (Z.min l (size - p)) with l by lia.
    pose proof (copy_loop_clamped decoder code p Hcode Hpos
                  (Z.to_nat l) (Z.to_nat (p + l - p)) 0 st0) as Hcopy.
    replace (p + 0 + Z.of_nat (Z.to_nat l)) with (p + l) in Hcopy by lia.
    replace (p + 0) with p in Hcopy by lia.
    apply Hcopy; lia.
Qed.

Section Refinement.

Variable decoder : fsst_decoder_t.
Variable C : list byte.
Variable output : list byte.

Hypothesis table_valid : table_ok decoder = true.
Hypothesis input_fits : lenZ C < size_modulus.
Hypothesis output_fits : logical_length decoder C < size_modulus.

Lemma loop_body_clamped_eq st :
  loop_invariant decoder C output st ->
  loop_body_clamped decoder C (lenZ output) st
  = loop_body decoder C (lenZ output) st.
Proof.
  intros (pre & R & P & HC & Hwf & Hin & Hout & Hbuf & HL & _).
  unfold loop_body_clamped, loop_body, load_strIn.
  destruct (lookupZ C (posIn st)) as [c|] eqn:Hc; cbn [bind]; [|reflexivity].
  destruct (Z_of_byte c <? FSST_ESC) eqn:Hcode; [|reflexivity].
  symmetry. apply expand_symbol_clamped_eq.
  - now apply is_code_bounds.
  - now apply table_ok_len.
  - cbn. rewrite Hout. apply lenZ_nonneg.
  - cbn [set_posIn record posOut]. rewrite Hout.
    destruct R as [|c' rest].
    + rewrite app_nil_r in HC. subst pre.
      rewrite lookupZ_end in Hc by lia. discriminate.
    + rewrite Hin, HC, lookupZ_middle in Hc. injection Hc as ->.
      cbn [logical_length] in HL. unfold is_code in HL. rewrite Hcode in HL.
      pose proof (logical_length_nonneg decoder rest). lia.
Qed.

Lemma while_loop_clamped_eq :
  forall fuel st,
    loop_invariant decoder C output st ->
    while_loop_clamped fuel decoder (lenZ C) C (lenZ output) st
    = while_loop fuel decoder (lenZ C) C (lenZ output) st.
Proof.
  induction fuel as [|fuel IH]; intros st Hinv;
    cbn [while_loop_clamped while_loop]; [reflexivity|].
  destruct (Z.ltb_spec (posIn st) (lenZ C)) as [Hmore|Hdone]; [|reflexivity].
  rewrite loop_body_clamped_eq by exact Hinv.
  destruct (invariant_progress decoder C output table_valid input_fits
              output_fits st Hinv Hmore) as (st' & Hbody & Hinv' & _).
  rewrite Hbody. cbn [bind]. now apply IH.
Qed.

End Refinement.

(** ** The fuel is enough

    Whatever the compressed string, well formed or not, a call never stops
    for lack of fuel: it returns or it loads out of bounds. *)

Lemma copy_loop_fuel decoder symbolPointer endWrite :
  endWrite < size_modulus ->
  forall fuel posWrite st,
    0 <= posWrite -> (Z.to_nat (endWrite - posWrite) <= fuel)%nat ->
    copy_loop fuel decoder symbolPointer posWrite endWrite st <> Err OutOfFuel.
Proof.
  intros Hend. induction fuel as [|fuel IH]; intros posWrite st Hpos Hfuel;
    cbn [copy_loop]; destruct (Z.ltb_spec posWrite endWrite) as [Hlt|Hge];
    try discriminate; [lia|].
  unfold load_symbol. destruct (_ && _); cbn [bind]; [|discriminate].
  rewrite wrap_small by lia. apply IH; lia.
Qed.

Lemma loop_body_fuel decoder strIn size st :
  0 <= posOut st -> loop_body decoder strIn size st <> Err OutOfFuel.
Proof.
  intros Hpos. unfold loop_body, load_strIn.
  destruct (lookupZ strIn (posIn st)) as [c|]; cbn [bind]; [|discriminate].
  destruct (_ <? FSST_ESC).
  - unfold expand_symbol. cbn [set_posIn set_posOut record posOut].
    pose proof (wrap_bounds (posOut st + len_at decoder (Z_of_byte c))) as Hw.
    apply copy_loop_fuel; try lia.
    rewrite Z.gtb_ltb.
    destruct (Z.ltb_spec size (wrap (posOut st + len_at decoder (Z_of_byte c)))); lia.
  - unfold expand_escape, load_strIn. destruct (_ <? size); cbn [bind]; [|discriminate].
    destruct (lookupZ strIn _); cbn [bind]; discriminate.
Qed.

Lemma loop_body_cursors decoder strIn size st st' :
  0 <= posOut st ->
  loop_body decoder strIn size st = Ok st' ->
  (posIn st' = wrap (posIn st + 1) \/ posIn st' = wrap (wrap (posIn st + 1) + 1))
  /\ 0 <= posOut st'.
Proof.
  intros Hpos Hrun.
  destruct (lookupZ strIn (posIn st)) as [c|] eqn:Hc;
    [|rewrite loop_body_overread in Hrun by exact Hc; discriminate].
  destruct (is_code c) eqn:Hcode.
  - rewrite (loop_body_code _ _ _ _ c Hc Hcode) in Hrun.
    apply expand_symbol_trace in Hrun as (Hin & Hout & _); [|exact Hpos].
    split; [left; exact Hin|]. rewrite Hout. apply wrap_bounds.
  - rewrite (loop_body_escape _ _ _ _ c Hc Hcode) in Hrun.
    apply expand_escape_trace in Hrun as (Hin & Hout & _); [|exact Hpos].
    split; [right; exact Hin|]. rewrite Hout. apply wrap_bounds.
Qed.

Lemma while_loop_fuel decoder lenIn strIn size :
  lenIn + 1 < size_modulus ->
  forall fuel st,
    0 <= posIn st -> 0 <= posOut st ->
    (Z.to_nat (lenIn - posIn st) <= fuel)%nat ->
    while_loop fuel decoder lenIn strIn size st <> Err OutOfFuel.
Proof.
  intros Hlen. induction fuel as [|fuel IH]; intros st Hin Hout Hfuel;
    cbn [while_loop]; destruct (Z.ltb_spec (posIn st) lenIn) as [Hmore|Hdone];
    try discriminate; [lia|].
  destruct (loop_body decoder strIn size st) as [st'|e] eqn:Hbody; cbn [bind].
  - apply loop_body_cursors in Hbody as [Hin' Hout']; [|exact Hout].
    rewrite !wrap_small in Hin' by (rewrite ?wrap_small; lia).
    apply IH; lia.
  - intros [= ->]. now apply (loop_body_fuel decoder strIn size st Hout).
Qed.

Lemma fuel_suffices decoder lenIn strIn size output :
  lenIn + 1 < size_modulus ->
  fsst_decompress decoder lenIn strIn size output <> Err OutOfFuel.
Proof.
  intros Hlen. unfold fsst_decompress.
  pose proof (while_loop_fuel decoder lenIn strIn size Hlen (Z.to_nat lenIn)
                (initial output)) as Hloop.
  destruct (while_loop _ _ _ _ _ _) as [st|e]; cbn [bind]; [discriminate|].
  intros [= ->]. apply Hloop; cbn [initial posIn posOut]; (lia || reflexivity).
Qed.

(** * The properties of the specification *)

(** C1.  On a well-formed compressed string [C] (a string whose last byte
    is not the escape marker is one, see [last_not_escape_well_formed]) the
    call returns the logical length of [C]: the sum of [len[code]] over its
    codes plus one per escape.  The buffers [buf] and [buf'] and their
    capacities are arbitrary: the value returned is the same for both, and
    it may exceed the capacity. *)
Theorem C1_returns_logical_length decoder C buf buf' :
  table_ok decoder = true -> well_formed C = true ->
  lenZ C < size_modulus -> logical_length decoder C < size_modulus ->
  exists o o',
    fsst_decompress decoder (lenZ C) C (lenZ buf) buf = Ok o
    /\ fsst_decompress decoder (lenZ C) C (lenZ buf') buf' = Ok o'
    /\ returned o = logical_length decoder C
    /\ returned o' = returned o.
Proof.
  intros Hok Hwf HC HL.
  destruct (fsst_decompress_run decoder C buf Hok Hwf HC HL) as (st & _ & _ & Hrun).
  destruct (fsst_decompress_run decoder C buf' Hok Hwf HC HL) as (st' & _ & _ & Hrun').
  do 2 eexists. split; [exact Hrun|]. split; [exact Hrun'|]. split; reflexivity.
Qed.

Lemma C1_witness :
  exists o o',
    fsst_decompress (sample_decoder x01) 4 sample_input 3 (replicate 3 xaa) = Ok o
    /\ fsst_decompress (sample_decoder x01) 4 sample_input 8 (replicate 8 x55) = Ok o'
    /\ returned o = 6
    /\ returned o' = returned o.
Proof.
  exact (C1_returns_logical_length (sample_decoder x01) sample_input
           (replicate 3 xaa) (replicate 8 x55) eq_refl eq_refl eq_refl eq_refl).
Defined.

(** C2.  Truncation.  With [S] the decompressed string of [C] and [L] its
    length, a call on a buffer of capacity [k] returns [L] and leaves the
    first [min k L] bytes of the buffer equal to those of [S], but for the
    byte at [k - 1] when the terminator is forced there (the
    zero-terminated bit is set and [k <= L]). *)
Theorem C2_truncation decoder C buf :
  table_ok decoder = true -> well_formed C = true ->
  lenZ C < size_modulus -> logical_length decoder C < size_modulus ->
  exists o,
    fsst_decompress decoder (lenZ C) C (lenZ buf) buf = Ok o
    /\ returned o = logical_length decoder C
    /\ length (buffer o) = length buf
    /\ forall i : nat,
         (i < length buf)%nat -> Z.of_nat i < logical_length decoder C ->
         ~ (zt_bit decoder = true /\ lenZ buf <= logical_length decoder C
            /\ Z.of_nat i = lenZ buf - 1) ->
         buffer o !! i = expand decoder C !! i.
Proof.
  intros Hok Hwf HC HL.
  destruct (fsst_decompress_run decoder C buf Hok Hwf HC HL) as (st & _ & _ & Hrun).
  eexists. split; [exact Hrun|]. cbn [returned buffer]. split; [reflexivity|].
  pose proof (length_expand decoder C Hwf) as HS. unfold lenZ in HS.
  split.
  - destruct (_ && _); rewrite ?length_insert; apply length_overlay.
  - intros i Hi HiL Hnot.
    assert (Hov : overlay (expand decoder C) buf !! i = expand decoder C !! i)
      by (rewrite lookup_overlay; apply decide_True; lia).
    destruct ((lenZ buf <=? logical_length decoder C) && zt_bit decoder) eqn:Hforce;
      [|exact Hov].
    apply andb_prop in Hforce as [Hle%Z.leb_le Hzt].
    rewrite list_lookup_insert_ne; [exact Hov|].
    intros Heq. apply Hnot. repeat split; try assumption. unfold lenZ in *. lia.
Qed.

Lemma C2_witness :
  exists o,
    fsst_decompress (sample_decoder x01) 4 sample_input 3 (replicate 3 xaa) = Ok o
    /\ returned o = 6
    /\ length (buffer o) = 3%nat
    /\ forall i : nat,
         (i < 3)%nat -> Z.of_nat i < 6 ->
         ~ (zt_bit (sample_decoder x01) = true /\ 3 <= 6 /\ Z.of_nat i = 3 - 1) ->
         buffer o !! i = [x68; x65; x6c; x6c; x6f; x21] !! i.
Proof.
  exact (C2_truncation (sample_decoder x01) sample_input
           (replicate 3 xaa) eq_refl eq_refl eq_refl eq_refl).
Defined.

(** C3.  Zero termination.  With the zero-terminated bit set and a buffer of
    capacity [k <= L], the last access of the call is the store of 0 to
    index [k - 1] (reduced modulo [2^64], as [size - 1] is), so that the
    byte of the buffer at position [k - 1] is 0 whatever the expansion put
    there; with [L < k] the call makes no access after the loop and returns
    the buffer as the loop left it. *)
Theorem C3_zero_termination decoder C buf :
  zt_bit decoder = true ->
  table_ok decoder = true -> well_formed C = true ->
  lenZ C < size_modulus -> logical_length decoder C < size_modulus ->
  exists st o,
    while_loop (Z.to_nat (lenZ C)) decoder (lenZ C) C (lenZ buf) (initial buf) = Ok st
    /\ fsst_decompress decoder (lenZ C) C (lenZ buf) buf = Ok o
    /\ (lenZ buf <= logical_length decoder C ->
        accesses o = trace st ++ [Store (wrap (lenZ buf - 1)) x00]
        /\ forall i : nat, Z.of_nat i = lenZ buf - 1 -> buffer o !! i = Some x00)
    /\ (logical_length decoder C < lenZ buf ->
        accesses o = trace st /\ buffer o = strOut st).
Proof.
  intros Hzt Hok Hwf HC HL.
  destruct (fsst_decompress_run decoder C buf Hok Hwf HC HL)
    as (st & Hloop & Hbuf & Hrun).
  exists st. eexists. split; [exact Hloop|]. split; [exact Hrun|].
  cbn [accesses buffer]. rewrite Hzt, andb_true_r. split.
  - intros Hle. apply Z.leb_le in Hle. rewrite Hle. split; [reflexivity|].
    intros i Hi. replace (Z.to_nat (lenZ buf - 1)) with i by lia.
    apply list_lookup_insert_eq. rewrite length_overlay. unfold lenZ in Hi. lia.
  - intros Hlt. apply Z.leb_gt in Hlt. rewrite Hlt. now rewrite Hbuf.
Qed.

Lemma C3_witness :
  exists st o,
    while_loop 4 (sample_decoder x01) 4 sample_input 3 (initial (replicate 3 xaa)) = Ok st
    /\ fsst_decompress (sample_decoder x01) 4 sample_input 3 (replicate 3 xaa) = Ok o
    /\ (3 <= 6 ->
        accesses o = trace st ++ [Store (wrap (3 - 1)) x00]
        /\ forall i : nat, Z.of_nat i = 3 - 1 -> buffer o !! i = Some x00)
    /\ (6 < 3 -> accesses o = trace st /\ buffer o = strOut st).
Proof.
  exact (C3_zero_termination (sample_decoder x01) sample_input
           (replicate 3 xaa) eq_refl eq_refl eq_refl eq_refl eq_refl).
Defined.

(** C4.  Bounds.  Decompressing "hello!" into a buffer of capacity 0 with
    the zero-terminated bit set returns 6 and stores the terminator at
    index [size - 1 = 2^64 - 1], which is not below [size].  At every other
    capacity, and with the bit clear, all stores are below [size] and all
    loads of a symbol are within the first [len[code]] bytes of its word
    ([accesses_in_bounds]). *)
Theorem C4_store_outside_empty_buffer :
  let size := 0 in
  exists o i,
    fsst_decompress (sample_decoder x01) 4 sample_input size [] = Ok o
    /\ returned o = 6
    /\ store_indices (accesses o) = [i]
    /\ i = size_modulus - 1
    /\ size <= i.
Proof.
  cbv zeta. eexists. exists (size_modulus - 1).
  split; [vm_compute; reflexivity|]. cbn [returned accesses].
  repeat split. discriminate.
Qed.

(** An escape unit on its own: the iteration takes the escape marker and
    the byte after it, stores that byte if the output cursor is below
    [size], and moves the output cursor by one. *)
Lemma escape_unit_step decoder strIn size st lit :
  lookupZ strIn (posIn st) = Some xff ->
  lookupZ strIn (posIn st + 1) = Some lit ->
  0 <= posIn st -> lenZ strIn < size_modulus ->
  0 <= posOut st -> posOut st + 1 < size_modulus ->
  loop_body decoder strIn size st
  = Ok (mk_state (posIn st + 2) (posOut st + 1)
          (if posOut st <? size then strOut (store (posOut st) lit st) else strOut st)
          (trace st ++ LoadIn (posIn st)
             :: (if posOut st <? size
                 then [LoadIn (posIn st + 1); Store (posOut st) lit] else []))).
Proof.
  intros Hesc Hlit Hin Hlen Hout Hmax.
  assert (Hbound : posIn st + 1 < lenZ strIn).
  { destruct (Z.lt_ge_cases (posIn st + 1) (lenZ strIn)) as [H|H]; [exact H|].
    rewrite lookupZ_end in Hlit by exact H. discriminate. }
  rewrite (loop_body_escape _ _ _ _ xff Hesc eq_refl).
  unfold expand_escape, load_strIn.
  cbn [set_posIn record posIn posOut strOut trace].
  rewrite (wrap_small (posIn st + 1)) by lia. rewrite Hlit.
  destruct (posOut st <? size); cbn [bind];
    unfold set_posOut, set_posIn, store, record; cbn [posIn posOut strOut trace];
    rewrite !wrap_small by lia; rewrite <- ?app_assoc;
    (replace (posIn st + 1 + 1) with (posIn st + 2) by lia); reflexivity.
Qed.

(** C5.  Escape fidelity.  Decompressing [255, b] into a buffer of capacity
    at least 1 returns 1 after loading the two bytes and storing [b] at
    index 0; [b] is still there on return unless the capacity is 1 and the
    zero-terminated bit is set, when the forced terminator follows.  In
    general an escape unit consumes the marker and one more byte, stores
    that byte only if the output cursor is below [size], and moves the
    output cursor by one. *)
Theorem C5_escape_fidelity decoder b buf :
  1 <= lenZ buf ->
  fsst_decompress decoder 2 [xff; b] (lenZ buf) buf
  = Ok (if (lenZ buf =? 1) && zt_bit decoder
        then mk_outcome 1 (<[0%nat := x00]> (<[0%nat := b]> buf))
               [LoadIn 0; LoadIn 1; Store 0 b; Store 0 x00]
        else mk_outcome 1 (<[0%nat := b]> buf)
               [LoadIn 0; LoadIn 1; Store 0 b])
  /\ forall strIn size st lit,
       lookupZ strIn (posIn st) = Some xff ->
       lookupZ strIn (posIn st + 1) = Some lit ->
       0 <= posIn st -> lenZ strIn < size_modulus ->
       0 <= posOut st -> posOut st + 1 < size_modulus ->
       loop_body decoder strIn size st
       = Ok (mk_state (posIn st + 2) (posOut st + 1)
               (if posOut st <? size
                then strOut (store (posOut st) lit st) else strOut st)
               (trace st ++ LoadIn (posIn st)
                  :: (if posOut st <? size
                      then [LoadIn (posIn st + 1); Store (posOut st) lit]
                      else []))).
Proof.
  intros Hsize. split; [|apply escape_unit_step].
  unfold fsst_decompress. change (Z.to_nat 2) with 2%nat.
  cbn [while_loop initial posIn Z.ltb Z.compare].
  rewrite (escape_unit_step decoder [xff; b] (lenZ buf) (initial buf) b);
    try reflexivity; try (cbn; lia).
  cbn [bind initial posIn posOut strOut trace app].
  change (0 + 2) with 2. change (0 + 1) with 1. change (Z.to_nat 0) with 0%nat.
  cbn [while_loop posIn Z.ltb Z.compare Pos.compare Pos.compare_cont bind].
  destruct (Z.ltb_spec 0 (lenZ buf)); [|lia].
  rewrite store_inside by (cbn [initial strOut]; lia).
  cbn [initial strOut]. change (Z.to_nat 0) with 0%nat.
  unfold terminate. cbn [posOut]. rewrite Z.geb_leb.
  destruct (Z.eqb_spec (lenZ buf) 1) as [Hone|Hmore].
  - rewrite Hone, Z.leb_refl. cbn [andb].
    destruct (zt_bit decoder); [|reflexivity].
    change (wrap (1 - 1)) with 0.
    rewrite store_inside by (cbn [strOut]; unfold lenZ in *; rewrite length_insert; lia).
    reflexivity.
  - destruct (Z.leb_spec (lenZ buf) 1); [lia|]. reflexivity.
Qed.

Lemma C5_witness :
  fsst_decompress (sample_decoder x00) 2 [xff; x21] 3 (replicate 3 xaa)
  = Ok (mk_outcome 1 [x21; xaa; xaa] [LoadIn 0; LoadIn 1; Store 0 x21]).
Proof.
  exact (proj1 (C5_escape_fidelity (sample_decoder x00) x21 (replicate 3 xaa)
                  ltac:(vm_compute; discriminate))).
Defined.

(** C6.  Empty input.  A call on the empty compressed string returns 0 and
    leaves every byte of the buffer as it was.  It makes no access at all
    unless the buffer is empty and the zero-terminated bit is set: the
    terminator then goes to index [size - 1], outside the buffer. *)
Theorem C6_empty_input decoder buf :
  fsst_decompress decoder 0 [] (lenZ buf) buf
  = Ok (mk_outcome 0 buf
          (if (lenZ buf =? 0) && zt_bit decoder
           then [Store (wrap (0 - 1)) x00] else [])).
Proof.
  unfold fsst_decompress. cbn [Z.to_nat while_loop initial posIn Z.ltb Z.compare bind].
  unfold terminate. cbn [posOut].
  destruct buf as [|x buf]; [|reflexivity].
  cbn [lenZ length Z.of_nat Z.geb Z.compare Z.eqb andb].
  destruct (zt_bit decoder); reflexivity.
Qed.

(** C7.  Copy-loop refinement.  Expanding a symbol through the pointer
    [&symbol[code] - posWrite] does what the clamped copy does: for each
    [j] below [min len[code] (size - posOut)], byte [j] of the symbol's word
    goes to index [posOut + j].  A call with the clamped copy in place of
    the loop of the source has the same outcome: the same value returned,
    the same buffer, the same accesses. *)
Theorem C7_copy_loop_refinement decoder C buf :
  table_ok decoder = true -> well_formed C = true ->
  lenZ C < size_modulus -> logical_length decoder C < size_modulus ->
  (forall size code st,
     0 <= code < 255 -> 0 <= posOut st ->
     posOut st + len_at decoder code < size_modulus ->
     expand_symbol decoder size code st
     = expand_symbol_clamped decoder size code st)
  /\ fsst_decompress_clamped decoder (lenZ C) C (lenZ buf) buf
     = fsst_decompress decoder (lenZ C) C (lenZ buf) buf.
Proof.
  intros Hok Hwf HC HL. split.
  - intros size code st Hcode Hpos Hmax.
    apply expand_symbol_clamped_eq; try assumption. now apply table_ok_len.
  - unfold fsst_decompress_clamped, fsst_decompress.
    rewrite (while_loop_clamped_eq decoder C buf Hok HC HL); [reflexivity|].
    now apply invariant_initial.
Qed.

Lemma C7_witness :
  fsst_decompress_clamped (sample_decoder x01) 4 sample_input 3 (replicate 3 xaa)
  = fsst_decompress (sample_decoder x01) 4 sample_input 3 (replicate 3 xaa).
Proof.
  exact (proj2 (C7_copy_loop_refinement (sample_decoder x01) sample_input
                  (replicate 3 xaa) eq_refl eq_refl eq_refl eq_refl)).
Defined.

(** C8.  Termination and cursors.  On a well-formed string the loop ends,
    with any fuel of at least the length of the string, in a state whose
    input cursor is [lenIn]; while the input cursor is below [lenIn] the
    next iteration runs; every iteration moves the input cursor forward,
    never past [lenIn], and never moves the output cursor back; and the
    indices of the compressed string that a call loads are strictly
    increasing, so that no byte is loaded twice. *)
Theorem C8_termination_monotone decoder C buf :
  table_ok decoder = true -> well_formed C = true ->
  lenZ C < size_modulus -> logical_length decoder C < size_modulus ->
  (forall fuel, (length C <= fuel)%nat ->
     exists st,
       while_loop fuel decoder (lenZ C) C (lenZ buf) (initial buf) = Ok st
       /\ posIn st = lenZ C)
  /\ (exists o,
        fsst_decompress decoder (lenZ C) C (lenZ buf) buf = Ok o
        /\ StronglySorted Z.lt (in_loads (accesses o)))
  /\ (forall st,
        reachable decoder (lenZ C) C (lenZ buf) buf st ->
        posIn st < lenZ C ->
        exists st', step decoder (lenZ C) C (lenZ buf) st st')
  /\ (forall st st',
        reachable decoder (lenZ C) C (lenZ buf) buf st ->
        step decoder (lenZ C) C (lenZ buf) st st' ->
        posIn st < posIn st' <= lenZ C /\ posOut st <= posOut st').
Proof.
  intros Hok Hwf HC HL. split; [|split; [|split]].
  - intros fuel Hfuel.
    destruct (while_loop_spec decoder buf C Hok HC C Hwf [] [] (initial buf) fuel)
      as (st & Hrun & Hin & _); try reflexivity; try assumption.
    + cbn. now rewrite overlay_nil.
    + exists st. now split.
  - destruct (fsst_decompress_run decoder C buf Hok Hwf HC HL)
      as (st & Hloop & _ & Hrun).
    eexists. split; [exact Hrun|]. cbn [accesses].
    apply while_loop_reachable with (output := buf) in Hloop as [Hreach _];
      [|constructor].
    apply reachable_invariant in Hreach; try assumption.
    destruct Hreach as (pre & R & P & _ & _ & _ & _ & _ & _ & Hsorted & _).
    destruct (_ && _); [|exact Hsorted].
    rewrite in_loads_app. cbn [in_loads]. now rewrite app_nil_r.
  - intros st Hreach Hmore.
    apply reachable_invariant in Hreach; try assumption.
    destruct (invariant_progress decoder C buf Hok HC HL st Hreach Hmore)
      as (st' & Hbody & _).
    exists st'. now split.
  - intros st st' Hreach Hstep.
    apply reachable_invariant in Hreach; try assumption.
    now apply (invariant_step decoder C buf Hok HC HL st st' Hreach Hstep).
Qed.

Lemma C8_witness :
  exists st,
    while_loop 4 (sample_decoder x01) 4 sample_input 3 (initial (replicate 3 xaa)) = Ok st
    /\ posIn st = 4.
Proof.
  exact (proj1 (C8_termination_monotone (sample_decoder x01) sample_input
                  (replicate 3 xaa) eq_refl eq_refl eq_refl eq_refl)
           4%nat (le_n 4)).
Defined.

(** Two calls that differ in what their buffers hold. *)
Lemma fsst_decompress_shape decoder lenIn strIn size buf1 buf2 :
  length buf1 = length buf2 ->
  result_rel (fun o1 o2 => returned o1 = returned o2 /\ accesses o1 = accesses o2)
    (fsst_decompress decoder lenIn strIn size buf1)
    (fsst_decompress decoder lenIn strIn size buf2).
Proof.
  intros Hlen. unfold fsst_decompress.
  pose proof (while_loop_shape decoder lenIn strIn size (Z.to_nat lenIn)
                (initial buf1) (initial buf2)) as Hloop.
  destruct (while_loop _ _ _ _ _ (initial buf1)) as [st1|e1],
           (while_loop _ _ _ _ _ (initial buf2)) as [st2|e2];
    cbn [bind result_rel] in *;
    try (apply Hloop; unfold same_shape; cbn; auto).
  assert (Hs : same_shape st1 st2) by (apply Hloop; unfold same_shape; cbn; auto).
  cbn [returned accesses]. unfold terminate.
  destruct Hs as (Hin & Hout & Htr & Hl). rewrite Hout.
  destruct (_ && _); cbn [store posOut trace]; rewrite ?Htr; auto.
Qed.

(** C9.  Determinism.  Two calls with one table on equal compressed strings
    and on buffers of equal capacity fail alike or return the same value
    after the same accesses, store for store and byte for byte, and leave
    buffers that agree at every index stored to. *)
Theorem C9_determinism decoder C1 C2 buf1 buf2 :
  C1 = C2 -> length buf1 = length buf2 ->
  result_rel
    (fun o1 o2 =>
       returned o1 = returned o2
       /\ accesses o1 = accesses o2
       /\ forall i : nat,
            In (Z.of_nat i) (store_indices (accesses o1)) ->
            buffer o1 !! i = buffer o2 !! i)
    (fsst_decompress decoder (lenZ C1) C1 (lenZ buf1) buf1)
    (fsst_decompress decoder (lenZ C2) C2 (lenZ buf2) buf2).
Proof.
  intros <- Hlen. unfold lenZ at 2 4. rewrite <- Hlen. fold (lenZ buf1).
  pose proof (fsst_decompress_shape decoder (lenZ C1) C1 (lenZ buf1) buf1 buf2 Hlen)
    as Hshape.
  destruct (fsst_decompress decoder (lenZ C1) C1 (lenZ buf1) buf1) as [o1|e1] eqn:Hrun1,
           (fsst_decompress decoder (lenZ C1) C1 (lenZ buf1) buf2) as [o2|e2] eqn:Hrun2;
    cbn [result_rel] in *; try exact Hshape.
  destruct Hshape as [Hret Hacc]. repeat split; try assumption.
  intros i Hi.
  rewrite (buffer_replay _ _ _ _ _ _ Hrun1), (buffer_replay _ _ _ _ _ _ Hrun2), <- Hacc.
  apply replay_agree; [exact Hlen|now right].
Qed.

Lemma C9_witness :
  result_rel
    (fun o1 o2 =>
       returned o1 = returned o2
       /\ accesses o1 = accesses o2
       /\ forall i : nat,
            In (Z.of_nat i) (store_indices (accesses o1)) ->
            buffer o1 !! i = buffer o2 !! i)
    (fsst_decompress (sample_decoder x01) 4 sample_input 8 (replicate 8 xaa))
    (fsst_decompress (sample_decoder x01) 4 sample_input 8 (replicate 8 x55)).
Proof.
  exact (C9_determinism (sample_decoder x01) sample_input sample_input
           (replicate 8 xaa) (replicate 8 x55) eq_refl eq_refl).
Defined.

(** C10.  Frame.  A call leaves every byte of the buffer at an index from
    [min L size] on as it was; the forced terminator, at [size - 1], lies
    below that bound. *)
Theorem C10_frame decoder C buf :
  table_ok decoder = true -> well_formed C = true ->
  lenZ C < size_modulus -> logical_length decoder C < size_modulus ->
  exists o,
    fsst_decompress decoder (lenZ C) C (lenZ buf) buf = Ok o
    /\ length (buffer o) = length buf
    /\ (forall i : nat,
          Z.min (logical_length decoder C) (lenZ buf) <= Z.of_nat i ->
          buffer o !! i = buf !! i)
    /\ (zt_bit decoder = true -> lenZ buf <= logical_length decoder C ->
        forall i : nat, Z.of_nat i = lenZ buf - 1 -> buffer o !! i = Some x00).
Proof.
  intros Hok Hwf HC HL.
  destruct (fsst_decompress_run decoder C buf Hok Hwf HC HL) as (st & _ & _ & Hrun).
  eexists. split; [exact Hrun|]. cbn [buffer].
  pose proof (length_expand decoder C Hwf) as HS. unfold lenZ in HS.
  split; [|split].
  - destruct (_ && _); rewrite ?length_insert; apply length_overlay.
  - intros i Hi.
    assert (Hov : overlay (expand decoder C) buf !! i = buf !! i).
    { rewrite lookup_overlay. destruct (decide (_ /\ _)) as [[H1 H2]|]; [|reflexivity].
      unfold lenZ in Hi. lia. }
    destruct ((lenZ buf <=? logical_length decoder C) && zt_bit decoder) eqn:Hforce;
      [|exact Hov].
    apply andb_prop in Hforce as [Hle%Z.leb_le Hzt].
    destruct (Z.eq_dec (lenZ buf) 0) as [Hzero|Hpos].
    + rewrite list_insert_ge; [exact Hov|].
      rewrite length_overlay. unfold lenZ in *. lia.
    + rewrite list_lookup_insert_ne; [exact Hov|]. unfold lenZ in *. lia.
  - intros Hzt Hle i Hi. apply Z.leb_le in Hle. rewrite Hle, Hzt. cbn [andb].
    replace (Z.to_nat (lenZ buf - 1)) with i by lia.
    apply list_lookup_insert_eq. rewrite length_overlay. unfold lenZ in Hi. lia.
Qed.

Lemma C10_witness :
  exists o,
    fsst_decompress (sample_decoder x01) 4 sample_input 8 (replicate 8 xaa) = Ok o
    /\ length (buffer o) = 8%nat
    /\ (forall i : nat, Z.min 6 8 <= Z.of_nat i -> buffer o !! i = replicate 8 xaa !! i)
    /\ (zt_bit (sample_decoder x01) = true -> 8 <= 6 ->
        forall i : nat, Z.of_nat i = 8 - 1 -> buffer o !! i = Some x00).
Proof.
  exact (C10_frame (sample_decoder x01) sample_input
           (replicate 8 xaa) eq_refl eq_refl eq_refl eq_refl).
Defined.

(** * Further properties of the decompressor *)

(** ** Compressed strings one after the other *)

Lemma well_formed_app C1 C2 :
  well_formed C1 = true -> well_formed C2 = true ->
  well_formed (C1 ++ C2) = true.
Proof.
  induction C1 as [|c rest Hc IH|c Hc|c b rest Hc IH] using units_ind;
    cbn [app well_formed]; rewrite ?Hc; auto; discriminate.
Qed.

Lemma logical_length_app decoder C1 C2 :
  well_formed C1 = true ->
  logical_length decoder (C1 ++ C2)
  = logical_length decoder C1 + logical_length decoder C2.
Proof.
  induction C1 as [|c rest Hc IH|c Hc|c b rest Hc IH] using units_ind;
    cbn [app well_formed logical_length]; rewrite ?Hc; try discriminate;
    intros Hwf; rewrite ?IH by exact Hwf; lia.
Qed.

Lemma expand_app decoder C1 C2 :
  well_formed C1 = true ->
  expand decoder (C1 ++ C2) = expand decoder C1 ++ expand decoder C2.
Proof.
  induction C1 as [|c rest Hc IH|c Hc|c b rest Hc IH] using units_ind;
    cbn [app well_formed expand]; rewrite ?Hc; try discriminate;
    intros Hwf; rewrite ?IH by exact Hwf; rewrite <- ?app_assoc; reflexivity.
Qed.

(** ** A well-formed part of a longer array

    The compressed string need not be the whole of [strIn], nor the part
    [M] the whole of the compressed string: [pre] was consumed, [M] is
    consumed next in at most [length M] iterations, [tail] is what follows
    in memory. *)

Lemma while_loop_exit fuel decoder lenIn strIn size st :
  lenIn <= posIn st -> while_loop fuel decoder lenIn strIn size st = Ok st.
Proof.
  intros Hdone. destruct fuel; cbn [while_loop];
    destruct (Z.ltb_spec (posIn st) lenIn); (lia || reflexivity).
Qed.

Lemma while_loop_segment decoder strIn lenIn buf :
  table_ok decoder = true -> lenIn < size_modulus ->
  forall M, well_formed M = true ->
  forall pre tail P st,
    strIn = pre ++ M ++ tail ->
    lenZ pre + lenZ M <= lenIn ->
    posIn st = lenZ pre -> posOut st = lenZ P -> strOut st = overlay P buf ->
    lenZ P + logical_length decoder M < size_modulus ->
    exists (n : nat) st',
      (n <= length M)%nat
      /\ (forall fuel,
            while_loop (n + fuel) decoder lenIn strIn (lenZ buf) st
            = while_loop fuel decoder lenIn strIn (lenZ buf) st')
      /\ posIn st' = lenZ pre + lenZ M
      /\ posOut st' = lenZ P + logical_length decoder M
      /\ strOut st' = overlay (P ++ expand decoder M) buf
      /\ exists new,
           trace st' = trace st ++ new
           /\ Forall (fun i => lenZ pre <= i < lenZ pre + lenZ M) (in_loads new).
Proof.
  intros Hok Hlen M.
  induction M as [|c rest Hc IH|c Hc|c b rest Hc IH] using units_ind;
    cbn [well_formed logical_length expand]; rewrite ?Hc;
    intros Hwf pre tail P st Hstr HlenIn Hin Hout Hbuf Hmax; try discriminate.
  - exists 0%nat, st. change (lenZ (@nil byte)) with 0. rewrite app_nil_r, !Z.add_0_r.
    repeat split; try (assumption || lia).
    exists []. rewrite app_nil_r. split; [reflexivity|constructor].
  - pose proof (lenZ_nonneg pre) as Hpre. pose proof (lenZ_nonneg rest) as Hrest.
    pose proof (lenZ_nonneg P) as HP.
    pose proof (logical_length_nonneg decoder rest) as HL.
    pose proof (len_at_bounds decoder (Z_of_byte c)) as Hl.
    rewrite lenZ_cons in HlenIn.
    assert (Hlk : lookupZ strIn (posIn st) = Some c)
      by (rewrite Hin, Hstr; apply lookupZ_middle).
    set (st2 := set_posIn (wrap (posIn st + 1)) (record (LoadIn (posIn st)) st)).
    assert (Hin2 : posIn st2 = lenZ pre + 1)
      by (subst st2; cbn; rewrite Hin; apply wrap_small; lia).
    destruct (expand_symbol_spec decoder (Z_of_byte c) P buf st2)
      as (st3 & Hrun & Hin3 & Hout3 & Hbuf3);
      [now apply is_code_bounds|now apply table_ok_len|exact Hout|exact Hbuf|lia|].
    pose proof Hrun as Htrace.
    apply expand_symbol_trace in Htrace as (_ & _ & _ & new3 & Htr3 & Hloads3 & _);
      [|subst st2; cbn; lia].
    destruct (IH Hwf (pre ++ [c]) tail (P ++ symbol_bytes decoder (Z_of_byte c)) st3)
      as (n & st' & Hn & Hloop & Hin' & Hout' & Hbuf' & new & Htr & Hloads).
    + rewrite Hstr, <- app_assoc. reflexivity.
    + rewrite lenZ_app. change (lenZ [c]) with 1. lia.
    + rewrite Hin3, Hin2, lenZ_app. reflexivity.
    + rewrite Hout3, lenZ_app, lenZ_symbol_bytes. reflexivity.
    + exact Hbuf3.
    + rewrite lenZ_app, lenZ_symbol_bytes. lia.
    + rewrite lenZ_app in Hin', Hloads. change (lenZ [c]) with 1 in Hin', Hloads.
      rewrite lenZ_app, lenZ_symbol_bytes in Hout'. rewrite <- app_assoc in Hbuf'.
      exists (S n), st'. rewrite lenZ_cons. repeat split; try (assumption || lia).
      * cbn [length]. lia.
      * intros fuel. cbn [Nat.add while_loop].
        destruct (Z.ltb_spec (posIn st) lenIn); [|lia].
        rewrite (loop_body_code _ _ _ _ c Hlk Hc). fold st2. rewrite Hrun.
        cbn [bind]. apply Hloop.
      * exists (LoadIn (posIn st) :: new3 ++ new).
        split.
        -- rewrite Htr, Htr3. subst st2. cbn [set_posIn record trace].
           rewrite <- !app_assoc. reflexivity.
        -- cbn [in_loads]. rewrite in_loads_app, Hloads3. cbn [app].
           constructor; [lia|]. eapply Forall_impl; [exact Hloads|].
           cbn beta. intros; lia.
  - pose proof (lenZ_nonneg pre) as Hpre. pose proof (lenZ_nonneg rest) as Hrest.
    pose proof (lenZ_nonneg P) as HP.
    pose proof (logical_length_nonneg decoder rest) as HL.
    rewrite !lenZ_cons in HlenIn.
    assert (Hlk : lookupZ strIn (posIn st) = Some c)
      by (rewrite Hin, Hstr; apply lookupZ_middle).
    set (st2 := set_posIn (wrap (posIn st + 1)) (record (LoadIn (posIn st)) st)).
    assert (Hin2 : posIn st2 = lenZ pre + 1)
      by (subst st2; cbn; rewrite Hin; apply wrap_small; lia).
    destruct (expand_escape_spec strIn P buf b st2)
      as (st3 & Hrun & Hin3 & Hout3 & Hbuf3);
      [|lia|lia|exact Hout|exact Hbuf|lia|].
    { rewrite Hin2, Hstr. cbn [app].
      replace (pre ++ c :: b :: rest ++ tail) with ((pre ++ [c]) ++ b :: rest ++ tail)
        by now rewrite <- app_assoc.
      replace (lenZ pre + 1) with (lenZ (pre ++ [c]))
        by (rewrite lenZ_app; unfold lenZ; cbn [length]; lia).
      apply lookupZ_middle. }
    pose proof Hrun as Htrace.
    apply expand_escape_trace in Htrace as (_ & _ & _ & new3 & Htr3 & Hloads3 & _);
      [|subst st2; cbn; lia].
    destruct (IH Hwf (pre ++ [c; b]) tail (P ++ [b]) st3)
      as (n & st' & Hn & Hloop & Hin' & Hout' & Hbuf' & new & Htr & Hloads).
    + rewrite Hstr, <- app_assoc. reflexivity.
    + rewrite lenZ_app. change (lenZ [c; b]) with 2. lia.
    + rewrite Hin3, Hin2, lenZ_app. change (lenZ [c; b]) with 2. lia.
    + rewrite Hout3, lenZ_app. reflexivity.
    + exact Hbuf3.
    + rewrite lenZ_app. change (lenZ [b]) with 1. lia.
    + rewrite lenZ_app in Hin', Hloads, Hout'.
      change (lenZ [c; b]) with 2 in Hin', Hloads.
      change (lenZ [b]) with 1 in Hout'. rewrite <- app_assoc in Hbuf'.
      exists (S n), st'. rewrite !lenZ_cons. repeat split; try (assumption || lia).
      * cbn [length]. lia.
      * intros fuel. cbn [Nat.add while_loop].
        destruct (Z.ltb_spec (posIn st) lenIn); [|lia].
        rewrite (loop_body_escape _ _ _ _ c Hlk Hc). fold st2. rewrite Hrun.
        cbn [bind]. apply Hloop.
      * exists (LoadIn (posIn st) :: new3 ++ new).
        split.
        -- rewrite Htr, Htr3. subst st2. cbn [set_posIn record trace].
           rewrite <- !app_assoc. reflexivity.
        -- cbn [in_loads]. rewrite in_loads_app.
           constructor; [lia|]. apply Forall_app. split.
           ++ destruct Hloads3 as [->|[-> _]]; [constructor|].
              constructor; [lia|constructor].
           ++ eapply Forall_impl; [exact Hloads|]. cbn beta. intros; lia.
Qed.

Lemma embedded_run decoder C tail buf :
  table_ok decoder = true -> well_formed C = true ->
  lenZ C < size_modulus -> logical_length decoder C < size_modulus ->
  exists st,
    while_loop (Z.to_nat (lenZ C)) decoder (lenZ C) (C ++ tail) (lenZ buf)
      (initial buf) = Ok st
    /\ posIn st = lenZ C
    /\ posOut st = logical_length decoder C
    /\ strOut st = overlay (expand decoder C) buf
    /\ Forall (fun i => 0 <= i < lenZ C) (in_loads (trace st)).
Proof.
  intros Hok Hwf HC HL.
  destruct (while_loop_segment decoder (C ++ tail) (lenZ C) buf Hok HC C Hwf
              [] tail [] (initial buf))
    as (n & st & Hn & Hloop & Hin & Hout & Hbuf & new & Htr & Hloads);
    try reflexivity; try (change (lenZ (@nil byte)) with 0; lia).
  - cbn. now rewrite overlay_nil.
  - exists st. change (lenZ (@nil byte)) with 0 in *. cbn [app] in *.
    rewrite Z.add_0_l in *. repeat split; try assumption.
    + replace (Z.to_nat (lenZ C)) with (n + (length C - n))%nat
        by (unfold lenZ; lia).
      rewrite Hloop. apply while_loop_exit. lia.
    + cbn in Htr. now subst new.
Qed.

(** X1.  Random access.  A compressed string that is followed by other
    bytes in memory is decompressed as if it stood alone: the call returns
    the same value and leaves the same buffer, and it loads no byte of
    [strIn] at or beyond [lenIn]. *)
Theorem X1_embedded_string decoder C tail buf :
  table_ok decoder = true -> well_formed C = true ->
  lenZ C < size_modulus -> logical_length decoder C < size_modulus ->
  exists o o',
    fsst_decompress decoder (lenZ C) (C ++ tail) (lenZ buf) buf = Ok o
    /\ fsst_decompress decoder (lenZ C) C (lenZ buf) buf = Ok o'
    /\ returned o = returned o'
    /\ buffer o = buffer o'
    /\ Forall (fun i => 0 <= i < lenZ C) (in_loads (accesses o)).
Proof.
  intros Hok Hwf HC HL.
  destruct (embedded_run decoder C tail buf Hok Hwf HC HL)
    as (st & Hloop & _ & Hout & Hbuf & Hloads).
  destruct (embedded_run decoder C [] buf Hok Hwf HC HL)
    as (st' & Hloop' & _ & Hout' & Hbuf' & _).
  rewrite app_nil_r in Hloop'.
  unfold fsst_decompress. rewrite Hloop, Hloop'. cbn [bind].
  do 2 eexists. split; [reflexivity|]. split; [reflexivity|].
  cbn [returned buffer accesses]. unfold terminate.
  rewrite Hout, Hout'.
  destruct (_ && _); cbn [store posOut strOut trace]; rewrite ?Hout, ?Hout', ?Hbuf, ?Hbuf';
    repeat split; try assumption.
  rewrite in_loads_app. cbn [in_loads]. now rewrite app_nil_r.
Qed.

Lemma X1_witness :
  exists o o',
    fsst_decompress (sample_decoder x00) 4 (sample_input ++ [xff; x05; x06]) 8
      (replicate 8 xaa) = Ok o
    /\ fsst_decompress (sample_decoder x00) 4 sample_input 8 (replicate 8 xaa) = Ok o'
    /\ returned o = returned o'
    /\ buffer o = buffer o'
    /\ Forall (fun i => 0 <= i < 4) (in_loads (accesses o)).
Proof.
  exact (X1_embedded_string (sample_decoder x00) sample_input [xff; x05; x06]
           (replicate 8 xaa) eq_refl eq_refl eq_refl eq_refl).
Defined.

(** ** An escape marker with nothing after it *)

(** The state in which the loop meets what follows a well-formed part [C0]
    of the compressed string. *)
Lemma after_well_formed_part decoder C0 tail lenIn buf :
  table_ok decoder = true -> well_formed C0 = true ->
  lenZ C0 < lenIn -> lenIn < size_modulus ->
  logical_length decoder C0 < size_modulus ->
  exists st (fuel : nat),
    while_loop (Z.to_nat lenIn) decoder lenIn (C0 ++ tail) (lenZ buf) (initial buf)
    = while_loop (S fuel) decoder lenIn (C0 ++ tail) (lenZ buf) st
    /\ posIn st = lenZ C0
    /\ posOut st = logical_length decoder C0
    /\ strOut st = overlay (expand decoder C0) buf
    /\ Forall (fun i => 0 <= i < lenZ C0) (in_loads (trace st)).
Proof.
  intros Hok Hwf Hmore Hlen HL.
  destruct (while_loop_segment decoder (C0 ++ tail) lenIn buf Hok Hlen C0 Hwf
              [] tail [] (initial buf))
    as (n & st & Hn & Hloop & Hin & Hout & Hbuf & new & Htr & Hloads);
    try reflexivity; try (change (lenZ (@nil byte)) with 0; lia).
  - cbn. now rewrite overlay_nil.
  - change (lenZ (@nil byte)) with 0 in *. rewrite Z.add_0_l in *.
    exists st, (Z.to_nat lenIn - n - 1)%nat. repeat split; try assumption.
    + rewrite <- Hloop. f_equal. unfold lenZ in *. lia.
    + cbn in Htr. now subst new.
Qed.

(** X2.  A compressed string that ends in an escape marker, after a
    well-formed part [C0] of decompressed length [L0].  If the buffer has
    room for one more byte the call loads [strIn[lenIn]], which the array
    does not have.  If the buffer is full the byte is not loaded: the call
    returns [L0 + 1], having loaded only bytes of the string. *)
Theorem X2_dangling_escape decoder C0 buf :
  table_ok decoder = true -> well_formed C0 = true ->
  lenZ C0 + 2 < size_modulus -> logical_length decoder C0 + 1 < size_modulus ->
  (logical_length decoder C0 < lenZ buf ->
   fsst_decompress decoder (lenZ C0 + 1) (C0 ++ [xff]) (lenZ buf) buf
   = Err LoadOutOfBounds)
  /\ (lenZ buf <= logical_length decoder C0 ->
      exists o,
        fsst_decompress decoder (lenZ C0 + 1) (C0 ++ [xff]) (lenZ buf) buf = Ok o
        /\ returned o = logical_length decoder C0 + 1
        /\ Forall (fun i => 0 <= i < lenZ C0 + 1) (in_loads (accesses o))).
Proof.
  intros Hok Hwf HC HL.
  pose proof (lenZ_nonneg C0) as HC0.
  pose proof (logical_length_nonneg decoder C0) as HL0.
  destruct (after_well_formed_part decoder C0 [xff] (lenZ C0 + 1) buf Hok Hwf)
    as (st & fuel & Hloop & Hin & Hout & Hbuf & Hloads); try lia.
  assert (Hlk : lookupZ (C0 ++ [xff]) (posIn st) = Some xff)
    by (rewrite Hin; apply lookupZ_middle).
  assert (Hbody : loop_body decoder (C0 ++ [xff]) (lenZ buf) st
                  = expand_escape (C0 ++ [xff]) (lenZ buf)
                      (set_posIn (lenZ C0 + 1) (record (LoadIn (lenZ C0)) st))).
  { rewrite (loop_body_escape _ _ _ _ xff Hlk eq_refl), Hin.
    now rewrite wrap_small by lia. }
  unfold fsst_decompress. rewrite Hloop. cbn [while_loop].
  destruct (Z.ltb_spec (posIn st) (lenZ C0 + 1)); [|lia].
  rewrite Hbody. unfold expand_escape, load_strIn.
  cbn [set_posIn record posIn posOut]. rewrite Hout.
  split; intros Hroom.
  - destruct (Z.ltb_spec (logical_length decoder C0) (lenZ buf)); [|lia].
    rewrite lookupZ_end; [reflexivity|].
    rewrite lenZ_app. change (lenZ [xff]) with 1. lia.
  - destruct (Z.ltb_spec (logical_length decoder C0) (lenZ buf)); [lia|].
    cbn [bind]. unfold set_posOut, set_posIn, record.
    cbn [posIn posOut strOut trace]. rewrite Hout, !wrap_small by lia.
    rewrite while_loop_exit by (cbn [posIn]; lia). cbn [bind].
    eexists. split; [reflexivity|]. cbn [returned accesses]. unfold terminate.
    destruct (_ && _); cbn [store posOut trace];
      rewrite ?in_loads_app; cbn [in_loads]; rewrite ?app_nil_r;
      (split; [reflexivity|]); apply Forall_app;
      (split; [eapply Forall_impl; [exact Hloads|]; cbn beta; intros; lia
              |constructor; [lia|constructor]]).
Qed.

Lemma X2_witness :
  (6 < 8 ->
   fsst_decompress (sample_decoder x00) 5 (sample_input ++ [xff]) 8 (replicate 8 xaa)
   = Err LoadOutOfBounds)
  /\ (8 <= 6 ->
      exists o,
        fsst_decompress (sample_decoder x00) 5 (sample_input ++ [xff]) 8
          (replicate 8 xaa) = Ok o
        /\ returned o = 6 + 1
        /\ Forall (fun i => 0 <= i < 4 + 1) (in_loads (accesses o))).
Proof.
  exact (X2_dangling_escape (sample_decoder x00) sample_input (replicate 8 xaa)
           eq_refl eq_refl eq_refl eq_refl).
Defined.

(** X3.  The same string inside a longer array.  The byte that follows the
    string in memory is taken for the escaped byte: the call loads
    [strIn[lenIn]], stores it at index [L0] of the buffer and returns
    [L0 + 1]. *)
Theorem X3_escape_reads_past_the_string decoder C0 b rest buf :
  table_ok decoder = true -> well_formed C0 = true ->
  lenZ (C0 ++ xff :: b :: rest) < size_modulus ->
  logical_length decoder C0 + 1 < size_modulus ->
  logical_length decoder C0 < lenZ buf ->
  exists o,
    fsst_decompress decoder (lenZ C0 + 1) (C0 ++ xff :: b :: rest) (lenZ buf) buf
    = Ok o
    /\ returned o = logical_length decoder C0 + 1
    /\ In (lenZ C0 + 1) (in_loads (accesses o))
    /\ In (Store (logical_length decoder C0) b) (accesses o)
    /\ (zt_bit decoder = false ->
        buffer o !! Z.to_nat (logical_length decoder C0) = Some b).
Proof.
  intros Hok Hwf HC HL Hroom.
  pose proof (lenZ_nonneg C0) as HC0. pose proof (lenZ_nonneg rest) as Hrest.
  pose proof (logical_length_nonneg decoder C0) as HL0.
  rewrite lenZ_app, !lenZ_cons in HC.
  destruct (after_well_formed_part decoder C0 (xff :: b :: rest) (lenZ C0 + 1) buf
              Hok Hwf)
    as (st & fuel & Hloop & Hin & Hout & Hbuf & Hloads); try lia.
  unfold fsst_decompress. rewrite Hloop. cbn [while_loop].
  destruct (Z.ltb_spec (posIn st) (lenZ C0 + 1)); [|lia].
  rewrite (escape_unit_step decoder _ (lenZ buf) st b); try lia.
  - cbn [bind]. rewrite while_loop_exit by (cbn [posIn]; lia). cbn [bind].
    rewrite Hout, Hin.
    destruct (Z.ltb_spec (logical_length decoder C0) (lenZ buf)); [|lia].
    rewrite store_inside by (rewrite Hbuf, lenZ_overlay; lia).
    eexists. split; [reflexivity|]. cbn [returned accesses buffer]. unfold terminate.
    cbn [posOut]. repeat split.
    + destruct (_ && _); reflexivity.
    + destruct (_ && _); cbn [store trace]; rewrite !in_loads_app;
        cbn [in_loads]; rewrite ?app_nil_r; apply in_or_app; right; cbn; auto.
    + destruct (_ && _); cbn [store trace]; rewrite <- ?app_assoc;
        apply in_or_app; right; cbn; auto.
    + intros Hzt. rewrite Hzt, andb_false_r. cbn [strOut].
      apply list_lookup_insert_eq.
      rewrite Hbuf, length_overlay. unfold lenZ in Hroom. lia.
  - rewrite Hin. apply lookupZ_middle.
  - rewrite Hin.
    replace (C0 ++ xff :: b :: rest) with ((C0 ++ [xff]) ++ b :: rest)
      by now rewrite <- app_assoc.
    replace (lenZ C0 + 1) with (lenZ (C0 ++ [xff]))
      by (rewrite lenZ_app; reflexivity).
    apply lookupZ_middle.
  - rewrite lenZ_app, !lenZ_cons. lia.
Qed.

Lemma X3_witness :
  exists o,
    fsst_decompress (sample_decoder x00) 5 (sample_input ++ [xff; x41; x42]) 8
      (replicate 8 xaa) = Ok o
    /\ returned o = 6 + 1
    /\ In (4 + 1) (in_loads (accesses o))
    /\ In (Store 6 x41) (accesses o)
    /\ (zt_bit (sample_decoder x00) = false -> buffer o !! 6%nat = Some x41).
Proof.
  exact (X3_escape_reads_past_the_string (sample_decoder x00) sample_input x41 [x42]
           (replicate 8 xaa) eq_refl eq_refl eq_refl eq_refl eq_refl).
Defined.

(** ** Calls one after the other *)

Lemma overlay_app S1 S2 buf :
  (length S1 <= length buf)%nat ->
  overlay (S1 ++ S2) buf
  = take (length S1) (overlay S1 buf)
    ++ overlay S2 (drop (length S1) (overlay S1 buf)).
Proof.
  intros Hfit. unfold overlay.
  rewrite (take_ge S1) by exact Hfit.
  rewrite take_app_length, drop_app_length.
  rewrite take_app, (take_ge S1) by exact Hfit.
  rewrite length_drop, length_app, <- drop_drop, <- app_assoc.
  reflexivity.
Qed.

(** X4.  Decompressing two strings one after the other into one buffer, the
    second where the first ended, leaves what one call on the two strings
    joined leaves, and the two values returned add up to the value that
    call returns.  The zero-terminated bit is clear and the first string
    fits the buffer; the second may be truncated. *)
Theorem X4_calls_compose decoder C1 C2 buf :
  zt_bit decoder = false -> table_ok decoder = true ->
  well_formed C1 = true -> well_formed C2 = true ->
  lenZ (C1 ++ C2) < size_modulus ->
  logical_length decoder C1 + logical_length decoder C2 < size_modulus ->
  logical_length decoder C1 <= lenZ buf ->
  exists o1 o2 o,
    fsst_decompress decoder (lenZ C1) C1 (lenZ buf) buf = Ok o1
    /\ fsst_decompress decoder (lenZ C2) C2
         (lenZ (drop (Z.to_nat (returned o1)) (buffer o1)))
         (drop (Z.to_nat (returned o1)) (buffer o1)) = Ok o2
    /\ fsst_decompress decoder (lenZ (C1 ++ C2)) (C1 ++ C2) (lenZ buf) buf = Ok o
    /\ returned o = returned o1 + returned o2
    /\ buffer o = take (Z.to_nat (returned o1)) (buffer o1) ++ buffer o2.
Proof.
  intros Hzt Hok Hwf1 Hwf2 HC HL Hfit.
  pose proof (lenZ_nonneg C1) as HC1. pose proof (lenZ_nonneg C2) as HC2.
  pose proof (logical_length_nonneg decoder C1) as HL1.
  pose proof (logical_length_nonneg decoder C2) as HL2.
  rewrite lenZ_app in HC.
  destruct (fsst_decompress_run decoder C1 buf Hok Hwf1 ltac:(lia) ltac:(lia))
    as (st1 & _ & _ & Hrun1).
  rewrite Hzt, andb_false_r in Hrun1.
  exists (mk_outcome (logical_length decoder C1) (overlay (expand decoder C1) buf)
            (trace st1)).
  cbn [returned buffer].
  set (B := drop _ _).
  destruct (fsst_decompress_run decoder C2 B Hok Hwf2 ltac:(lia) ltac:(lia))
    as (st2 & _ & _ & Hrun2).
  rewrite Hzt, andb_false_r in Hrun2.
  destruct (fsst_decompress_run decoder (C1 ++ C2) buf Hok)
    as (st & _ & _ & Hrun).
  { now apply well_formed_app. }
  { rewrite lenZ_app. lia. }
  { rewrite logical_length_app by exact Hwf1. lia. }
  rewrite Hzt, andb_false_r in Hrun.
  do 2 eexists. split; [exact Hrun1|]. split; [exact Hrun2|]. split; [exact Hrun|].
  cbn [returned buffer]. split; [now apply logical_length_app|].
  rewrite expand_app by exact Hwf1.
  pose proof (length_expand decoder C1 Hwf1) as HS1. unfold lenZ in HS1.
  subst B. rewrite <- HS1, Nat2Z.id.
  apply overlay_app. unfold lenZ in Hfit. lia.
Qed.

Lemma X4_witness :
  exists o1 o2 o,
    fsst_decompress (sample_decoder x00) 1 [x05] 4 (replicate 4 xaa) = Ok o1
    /\ fsst_decompress (sample_decoder x00) 3 [x06; xff; x21]
         (lenZ (drop (Z.to_nat (returned o1)) (buffer o1)))
         (drop (Z.to_nat (returned o1)) (buffer o1)) = Ok o2
    /\ fsst_decompress (sample_decoder x00) 4 sample_input 4 (replicate 4 xaa) = Ok o
    /\ returned o = returned o1 + returned o2
    /\ buffer o = take (Z.to_nat (returned o1)) (buffer o1) ++ buffer o2.
Proof.
  exact (X4_calls_compose (sample_decoder x00) [x05] [x06; xff; x21]
           (replicate 4 xaa) eq_refl eq_refl eq_refl eq_refl eq_refl eq_refl
           ltac:(vm_compute; discriminate)).
Defined.

(** X5.  The second attempt.  After a call into a buffer of any capacity,
    a call into a buffer of the capacity the first call returned returns
    the same value and fills that buffer with the whole decompressed
    string, if the zero-terminated bit is clear or the string ends in a
    zero byte.  The value returned is the capacity to allocate. *)
Theorem X5_second_attempt decoder C buf1 buf2 :
  table_ok decoder = true -> well_formed C = true ->
  lenZ C < size_modulus -> logical_length decoder C < size_modulus ->
  zt_bit decoder = false \/ last (expand decoder C) = Some x00 ->
  exists o1,
    fsst_decompress decoder (lenZ C) C (lenZ buf1) buf1 = Ok o1
    /\ (lenZ buf2 = returned o1 ->
        exists o2,
          fsst_decompress decoder (lenZ C) C (lenZ buf2) buf2 = Ok o2
          /\ returned o2 = returned o1
          /\ buffer o2 = expand decoder C).
Proof.
  intros Hok Hwf HC HL Hend.
  destruct (fsst_decompress_run decoder C buf1 Hok Hwf HC HL) as (st1 & _ & _ & Hrun1).
  destruct (fsst_decompress_run decoder C buf2 Hok Hwf HC HL) as (st2 & _ & _ & Hrun2).
  eexists. split; [exact Hrun1|]. cbn [returned]. intros Hcap.
  eexists. split; [exact Hrun2|]. cbn [returned buffer]. split; [reflexivity|].
  pose proof (length_expand decoder C Hwf) as HS. unfold lenZ in HS, Hcap.
  assert (Hfull : overlay (expand decoder C) buf2 = expand decoder C).
  { unfold overlay. rewrite take_ge, drop_ge by lia. apply app_nil_r. }
  rewrite Hfull.
  destruct ((lenZ buf2 <=? logical_length decoder C) && zt_bit decoder) eqn:Hforce;
    [|reflexivity].
  apply andb_prop in Hforce as [_ Hzt].
  destruct Hend as [Hoff|Hlast]; [congruence|].
  apply list_insert_id. rewrite last_lookup in Hlast.
  rewrite <- Hlast. f_equal. unfold lenZ. lia.
Qed.

Lemma X5_witness :
  exists o1,
    fsst_decompress (sample_decoder x00) 4 sample_input 2 (replicate 2 xaa) = Ok o1
    /\ (lenZ (replicate 6 x55) = returned o1 ->
        exists o2,
          fsst_decompress (sample_decoder x00) 4 sample_input 6 (replicate 6 x55)
          = Ok o2
          /\ returned o2 = returned o1
          /\ buffer o2 = [x68; x65; x6c; x6c; x6f; x21]).
Proof.
  exact (X5_second_attempt (sample_decoder x00) sample_input (replicate 2 xaa)
           (replicate 6 x55) eq_refl eq_refl eq_refl eq_refl (or_introl eq_refl)).
Defined.

(** ** The order of the stores *)

Lemma copy_loop_stores decoder symbolPointer endWrite :
  endWrite < size_modulus ->
  forall fuel posWrite st st',
    0 <= posWrite ->
    copy_loop fuel decoder symbolPointer posWrite endWrite st = Ok st' ->
    exists new,
      trace st' = trace st ++ new
      /\ store_indices new = seqZ posWrite (endWrite - posWrite).
Proof.
  intros Hend. induction fuel as [|fuel IH]; intros posWrite st st' Hpos Hrun;
    cbn [copy_loop] in Hrun; destruct (Z.ltb_spec posWrite endWrite) as [Hlt|Hge];
    try discriminate.
  - injection Hrun as <-. exists []. rewrite app_nil_r, seqZ_nil by lia. auto.
  - unfold load_symbol in Hrun. destruct (_ && _); [|discriminate].
    cbn [bind] in Hrun. rewrite wrap_small in Hrun by lia.
    apply IH in Hrun as (new & Htr & Hst); [|lia].
    cbn [store record trace] in Htr. rewrite <- !app_assoc in Htr.
    eexists. split; [exact Htr|]. cbn [app store_indices].
    rewrite Hst, (seqZ_cons posWrite) by lia. do 2 f_equal; lia.
  - injection Hrun as <-. exists []. rewrite app_nil_r, seqZ_nil by lia. auto.
Qed.

(** An iteration stores to the indices from [min posOut size] up to the new
    [min posOut size], in that order. *)
Lemma loop_body_stores decoder strIn size st st' :
  0 <= posOut st < size_modulus -> posOut st <= posOut st' ->
  loop_body decoder strIn size st = Ok st' ->
  exists new,
    trace st' = trace st ++ new
    /\ store_indices new
       = seqZ (Z.min (posOut st) size)
           (Z.min (posOut st') size - Z.min (posOut st) size).
Proof.
  intros Hpos Hmono Hrun.
  destruct (lookupZ strIn (posIn st)) as [c|] eqn:Hc;
    [|rewrite loop_body_overread in Hrun by exact Hc; discriminate].
  destruct (is_code c) eqn:Hcode.
  - rewrite (loop_body_code _ _ _ _ c Hc Hcode) in Hrun.
    pose proof Hrun as Hcur.
    apply expand_symbol_trace in Hcur as (_ & Hout & _); [|cbn; lia].
    cbn [set_posIn record posOut] in Hout.
    unfold expand_symbol in Hrun. cbn [set_posIn set_posOut record posOut] in Hrun.
    rewrite <- Hout, Z.gtb_ltb in Hrun.
    pose proof (wrap_bounds (posOut st + len_at decoder (Z_of_byte c))) as Hw.
    rewrite <- Hout in Hw.
    apply copy_loop_stores in Hrun as (new & Htr & Hst);
      [|destruct (Z.ltb_spec size (posOut st')); lia|lia].
    unfold set_posOut, set_posIn, record in Htr. cbn [trace] in Htr.
    rewrite <- app_assoc in Htr.
    eexists. split; [exact Htr|]. cbn [app store_indices]. rewrite Hst.
    destruct (Z.ltb_spec size (posOut st')); destruct (Z.le_gt_cases (posOut st) size);
      first [lia | f_equal; lia | rewrite !seqZ_nil by lia; reflexivity].
  - rewrite (loop_body_escape _ _ _ _ c Hc Hcode) in Hrun.
    pose proof Hrun as Hcur.
    apply expand_escape_trace in Hcur as (_ & Hout & _); [|cbn; lia].
    cbn [set_posIn record posOut] in Hout.
    assert (Hnext : posOut st' = posOut st + 1).
    { destruct (Z.lt_ge_cases (posOut st + 1) size_modulus) as [Hlt|Hge].
      - rewrite Hout. apply wrap_small. lia.
      - replace (posOut st + 1) with size_modulus in Hout by lia.
        unfold wrap in Hout. rewrite Z.mod_same in Hout by (pose size_modulus_pos; lia).
        assert (1 < size_modulus) by reflexivity. lia. }
    unfold expand_escape, load_strIn in Hrun.
    cbn [set_posIn record posIn posOut] in Hrun.
    destruct (Z.ltb_spec (posOut st) size) as [Hroom|Hfull].
    + destruct (lookupZ strIn _) as [b|]; [|discriminate].
      cbn [bind] in Hrun. injection Hrun as <-.
      cbn [set_posIn set_posOut store record trace posOut] in *.
      rewrite <- !app_assoc. eexists. split; [reflexivity|].
      cbn [app store_indices]. rewrite Z.min_l by lia.
      replace (Z.min _ size - posOut st) with 1 by lia. reflexivity.
    + cbn [bind] in Hrun. injection Hrun as <-.
      cbn [set_posIn set_posOut record trace posOut] in *.
      eexists. split; [reflexivity|]. cbn [store_indices].
      rewrite seqZ_nil by lia. reflexivity.
Qed.

Section StoreOrder.

Variable decoder : fsst_decoder_t.
Variable C : list byte.
Variable output : list byte.

Hypothesis table_valid : table_ok decoder = true.
Hypothesis input_fits : lenZ C < size_modulus.
Hypothesis output_fits : logical_length decoder C < size_modulus.

Lemma while_loop_stores :
  forall fuel st st',
    loop_invariant decoder C output st ->
    store_indices (trace st) = seqZ 0 (Z.min (posOut st) (lenZ output)) ->
    while_loop fuel decoder (lenZ C) C (lenZ output) st = Ok st' ->
    store_indices (trace st') = seqZ 0 (Z.min (posOut st') (lenZ output)).
Proof.
  induction fuel as [|fuel IH]; intros st st' Hinv Hst Hrun;
    cbn [while_loop] in Hrun;
    destruct (Z.ltb_spec (posIn st) (lenZ C)) as [Hmore|Hdone];
    try discriminate; try (injection Hrun as <-; exact Hst).
  destruct (invariant_progress decoder C output table_valid input_fits
              output_fits st Hinv Hmore) as (st1 & Hbody & Hinv1 & _ & Hmono).
  rewrite Hbody in Hrun. cbn [bind] in Hrun.
  apply (IH st1 st' Hinv1); [|exact Hrun].
  assert (Hpos : 0 <= posOut st < size_modulus).
  { destruct Hinv as (pre & R & P & _ & _ & _ & Hout & _ & HL & _).
    pose proof (lenZ_nonneg P). pose proof (logical_length_nonneg decoder R). lia. }
  apply loop_body_stores in Hbody as (new & Htr & Hnew); [|exact Hpos|exact Hmono].
  pose proof (lenZ_nonneg output) as Hsize.
  rewrite Htr, store_indices_app, Hst, Hnew.
  rewrite <- (Z.add_0_l (Z.min (posOut st) _)) at 2.
  rewrite <- seqZ_app by lia. f_equal. lia.
Qed.

End StoreOrder.

(** X6.  The buffer is filled front to back: the loop stores once to each
    index below [min L size], in ascending order, and to no other; the one
    store that may follow is the forced terminator at [size - 1]. *)
Theorem X6_stores_in_order decoder C buf :
  table_ok decoder = true -> well_formed C = true ->
  lenZ C < size_modulus -> logical_length decoder C < size_modulus ->
  exists o,
    fsst_decompress decoder (lenZ C) C (lenZ buf) buf = Ok o
    /\ store_indices (accesses o)
       = seqZ 0 (Z.min (logical_length decoder C) (lenZ buf))
         ++ (if (lenZ buf <=? logical_length decoder C) && zt_bit decoder
             then [wrap (lenZ buf - 1)] else []).
Proof.
  intros Hok Hwf HC HL.
  destruct (fsst_decompress_run decoder C buf Hok Hwf HC HL)
    as (st & Hloop & _ & Hrun).
  destruct (while_loop_run decoder C buf Hok Hwf HC HL)
    as (st0 & Hloop0 & _ & Hout & _).
  rewrite Hloop in Hloop0. injection Hloop0 as <-.
  eexists. split; [exact Hrun|]. cbn [accesses].
  assert (Hinit : store_indices (trace (initial buf))
                  = seqZ 0 (Z.min (posOut (initial buf)) (lenZ buf))).
  { cbn [initial trace posOut store_indices]. pose proof (lenZ_nonneg buf).
    rewrite seqZ_nil by lia. reflexivity. }
  pose proof (while_loop_stores decoder C buf Hok HC HL _ _ _
                (invariant_initial decoder C buf Hwf) Hinit Hloop) as Hst.
  rewrite Hout in Hst.
  destruct (_ && _); [|now rewrite app_nil_r].
  rewrite store_indices_app. cbn [store_indices]. now rewrite Hst.
Qed.

Lemma X6_witness :
  exists o,
    fsst_decompress (sample_decoder x01) 4 sample_input 3 (replicate 3 xaa) = Ok o
    /\ store_indices (accesses o) = [0; 1; 2] ++ [2].
Proof.
  exact (X6_stores_in_order (sample_decoder x01) sample_input (replicate 3 xaa)
           eq_refl eq_refl eq_refl eq_refl).
Defined.

(** ** Accesses of every run *)

Lemma reachable_bounds decoder lenIn strIn size output st :
  reachable decoder lenIn strIn size output st ->
  0 <= posOut st
  /\ Forall (fun i => 0 <= i < size) (store_indices (trace st))
  /\ Forall (fun a => exists code, 0 <= code < 255
               /\ 8 * code <= a < 8 * code + len_at decoder code)
       (sym_loads (trace st)).
Proof.
  induction 1 as [|st st' _ (Hpos & Hst & Hsym) [_ Hbody]].
  - cbn. repeat split; (lia || constructor).
  - apply loop_body_bounds in Hbody as (Hpos' & _ & new & Htr & Hst' & Hsym');
      [|exact Hpos].
    rewrite Htr, store_indices_app, sym_loads_app.
    repeat split; try apply Forall_app; auto.
Qed.

(** X7.  Whatever the table and the compressed string, well formed or not:
    in every state the loop reaches, each store made so far went to an
    index below [size] and each load of a symbol byte fell within the first
    [len[code]] bytes from the start of the word of some code; and a call
    that returns has made only such accesses, if [size] is not 0 or the
    zero-terminated bit is clear. *)
Theorem X7_accesses_in_bounds decoder lenIn strIn size output :
  (forall st,
     reachable decoder lenIn strIn size output st ->
     Forall (fun i => 0 <= i < size) (store_indices (trace st))
     /\ Forall (fun a => exists code, 0 <= code < 255
                  /\ 8 * code <= a < 8 * code + len_at decoder code)
          (sym_loads (trace st)))
  /\ (forall o,
        fsst_decompress decoder lenIn strIn size output = Ok o ->
        1 <= size \/ zt_bit decoder = false ->
        Forall (fun i => 0 <= i < size) (store_indices (accesses o))
        /\ Forall (fun a => exists code, 0 <= code < 255
                     /\ 8 * code <= a < 8 * code + len_at decoder code)
             (sym_loads (accesses o))).
Proof.
  split.
  - intros st Hreach. now apply reachable_bounds in Hreach as (_ & Hst & Hsym).
  - intros o Hrun Hsafe. now apply (accesses_in_bounds _ _ _ _ _ _ Hrun).
Qed.

Lemma X7_witness :
  Forall (fun i => 0 <= i < 3)
    (store_indices
       [LoadIn 0; LoadSym 40; Store 0 x68; LoadSym 41; Store 1 x65;
        LoadIn 1; LoadSym 48; Store 2 x6c; LoadIn 2; Store 2 x00])
  /\ Forall (fun a => exists code, 0 <= code < 255
               /\ 8 * code <= a < 8 * code + len_at (sample_decoder x01) code)
       (sym_loads
          [LoadIn 0; LoadSym 40; Store 0 x68; LoadSym 41; Store 1 x65;
           LoadIn 1; LoadSym 48; Store 2 x6c; LoadIn 2; Store 2 x00]).
Proof.
  refine (proj2 (X7_accesses_in_bounds (sample_decoder x01) 4 sample_input 3
                   (replicate 3 xaa))
            (mk_outcome 6 [x68; x65; x00]
               [LoadIn 0; LoadSym 40; Store 0 x68; LoadSym 41; Store 1 x65;
                LoadIn 1; LoadSym 48; Store 2 x6c; LoadIn 2; Store 2 x00]) _ _).
  - vm_compute. reflexivity.
  - left. lia.
Defined.

(** ** How much room the output needs *)

Lemma logical_length_bound decoder C :
  table_ok decoder = true -> logical_length decoder C <= 8 * lenZ C.
Proof.
  intros Hok.
  induction C as [|c rest Hc IH|c Hc|c b rest Hc IH] using units_ind;
    cbn [logical_length]; rewrite ?Hc, ?lenZ_cons.
  - reflexivity.
  - pose proof (table_ok_len decoder (Z_of_byte c) Hok). lia.
  - change (lenZ (@nil byte)) with 0. lia.
  - pose proof (lenZ_nonneg rest). lia.
Qed.

(** X8.  With symbols of at most 8 bytes the decompressed string is at most
    8 times as long as the compressed one: the value returned is at most
    [8 * lenIn], and a buffer of more than [8 * lenIn] bytes (or of
    [8 * lenIn] bytes with the zero-terminated bit clear) receives the whole
    string. *)
Theorem X8_eight_times_suffices decoder C buf :
  table_ok decoder = true -> well_formed C = true ->
  8 * lenZ C < size_modulus ->
  exists o,
    fsst_decompress decoder (lenZ C) C (lenZ buf) buf = Ok o
    /\ returned o <= 8 * lenZ C
    /\ (8 * lenZ C < lenZ buf
        \/ 8 * lenZ C <= lenZ buf /\ zt_bit decoder = false ->
        take (Z.to_nat (returned o)) (buffer o) = expand decoder C).
Proof.
  intros Hok Hwf HC.
  pose proof (logical_length_bound decoder C Hok) as Hbound.
  pose proof (lenZ_nonneg C) as HC0.
  destruct (fsst_decompress_run decoder C buf Hok Hwf ltac:(lia) ltac:(lia))
    as (st & _ & _ & Hrun).
  eexists. split; [exact Hrun|]. cbn [returned buffer]. split; [exact Hbound|].
  intros Hroom.
  assert (Hforce : (lenZ buf <=? logical_length decoder C) && zt_bit decoder = false).
  { destruct Hroom as [Hroom|[Hroom Hzt]].
    - destruct (Z.leb_spec (lenZ buf) (logical_length decoder C)); [lia|reflexivity].
    - now rewrite Hzt, andb_false_r. }
  rewrite Hforce.
  pose proof (length_expand decoder C Hwf) as HS.
  assert (Hfit : (length (expand decoder C) <= length buf)%nat)
    by (unfold lenZ in *; lia).
  unfold lenZ in HS. rewrite <- HS, Nat2Z.id. unfold overlay.
  rewrite (take_ge (expand decoder C)) by exact Hfit. apply take_app_length.
Qed.


Lemma X8_witness :
  exists o,
    fsst_decompress (sample_decoder x01) 4 sample_input 33 (replicate 33 xaa) = Ok o
    /\ returned o <= 8 * 4
    /\ (8 * 4 < 33 \/ 8 * 4 <= 33 /\ zt_bit (sample_decoder x01) = false ->
        take (Z.to_nat (returned o)) (buffer o) = [x68; x65; x6c; x6c; x6f; x21]).
Proof.
  exact (X8_eight_times_suffices (sample_decoder x01) sample_input (replicate 33 xaa)
           eq_refl eq_refl eq_refl).
Defined.

(** ** What of the table a call depends on *)

Lemma expand_ext decoder1 decoder2 C :
  Forall (fun c => is_code c = true ->
            symbol_bytes decoder1 (Z_of_byte c) = symbol_bytes decoder2 (Z_of_byte c)) C ->
  logical_length decoder1 C = logical_length decoder2 C
  /\ expand decoder1 C = expand decoder2 C.
Proof.
  induction C as [|c rest Hc IH|c Hc|c b rest Hc IH] using units_ind;
    cbn [logical_length expand]; rewrite ?Hc; intros Hagree; auto.
  - apply Forall_cons_1 in Hagree as [Hsym Hrest].
    destruct (IH Hrest) as [-> ->]. specialize (Hsym Hc).
    rewrite <- !lenZ_symbol_bytes, Hsym. auto.
  - apply Forall_cons_1 in Hagree as [_ Hrest].
    apply Forall_cons_1 in Hrest as [_ Hrest].
    destruct (IH Hrest) as [-> ->]. auto.
Qed.

(** X9.  A call observes of the table only the zero-terminated bit and, for
    the bytes of the compressed string that are codes, the first
    [len[code]] bytes of the word of the code: two tables that agree on
    these give the same value returned and the same buffer.  The padding
    of a word beyond [len[code]] and the entries of other codes do not
    matter. *)
Theorem X9_only_the_symbols_used_matter decoder1 decoder2 C buf :
  table_ok decoder1 = true -> table_ok decoder2 = true ->
  zt_bit decoder1 = zt_bit decoder2 ->
  Forall (fun c => is_code c = true ->
            symbol_bytes decoder1 (Z_of_byte c) = symbol_bytes decoder2 (Z_of_byte c)) C ->
  well_formed C = true ->
  lenZ C < size_modulus -> logical_length decoder1 C < size_modulus ->
  exists o1 o2,
    fsst_decompress decoder1 (lenZ C) C (lenZ buf) buf = Ok o1
    /\ fsst_decompress decoder2 (lenZ C) C (lenZ buf) buf = Ok o2
    /\ returned o1 = returned o2
    /\ buffer o1 = buffer o2.
Proof.
  intros Hok1 Hok2 Hzt Hagree Hwf HC HL.
  destruct (expand_ext decoder1 decoder2 C Hagree) as [HLeq HSeq].
  destruct (fsst_decompress_run decoder1 C buf Hok1 Hwf HC HL) as (st1 & _ & _ & Hrun1).
  destruct (fsst_decompress_run decoder2 C buf Hok2 Hwf HC ltac:(lia))
    as (st2 & _ & _ & Hrun2).
  do 2 eexists. split; [exact Hrun1|]. split; [exact Hrun2|].
  cbn [returned buffer]. rewrite HLeq, HSeq, Hzt. auto.
Qed.

Lemma X9_witness :
  exists o1 o2,
    fsst_decompress (sample_decoder x00) 4 sample_input 8 (replicate 8 xaa) = Ok o1
    /\ fsst_decompress
         (mk_decoder x02 (len (sample_decoder x00))
            (<[5%nat := 0xffffffffffff6568]> (<[7%nat := 0x41]> (symbol (sample_decoder x00)))))
         4 sample_input 8 (replicate 8 xaa) = Ok o2
    /\ returned o1 = returned o2
    /\ buffer o1 = buffer o2.
Proof.
  refine (X9_only_the_symbols_used_matter (sample_decoder x00)
            (mk_decoder x02 (len (sample_decoder x00))
               (<[5%nat := 0xffffffffffff6568]>
                  (<[7%nat := 0x41]> (symbol (sample_decoder x00)))))
            sample_input (replicate 8 xaa) eq_refl eq_refl eq_refl _ eq_refl
            eq_refl eq_refl).
  repeat constructor.
Defined.

(** ** A buffer that is full *)

(** Once the output cursor has reached [size] the rest of the compressed
    string [R], well formed or not, is only counted. *)
Lemma full_buffer_loop decoder C size :
  lenZ C + 1 < size_modulus ->
  forall R pre st fuel,
    C = pre ++ R ->
    posIn st = lenZ pre -> 0 <= posOut st -> size <= posOut st ->
    posOut st + logical_length decoder R < size_modulus ->
    (length R <= fuel)%nat ->
    exists st',
      while_loop fuel decoder (lenZ C) C size st = Ok st'
      /\ posOut st' = posOut st + logical_length decoder R
      /\ strOut st' = strOut st
      /\ store_indices (trace st') = store_indices (trace st)
      /\ sym_loads (trace st') = sym_loads (trace st).
Proof.
  intros HC R.
  induction R as [|c rest Hc IH|c Hc|c b rest Hc IH] using units_ind;
    cbn [logical_length]; rewrite ?Hc;
    intros pre st fuel HCeq Hin Hpos Hfull Hmax Hfuel.
  - exists st. rewrite app_nil_r in HCeq. subst pre.
    rewrite while_loop_exit by lia. repeat split; lia.
  - destruct fuel as [|fuel]; [cbn in Hfuel; lia|]. cbn [while_loop].
    pose proof (lenZ_nonneg pre) as Hpre. pose proof (lenZ_nonneg rest) as Hrest.
    pose proof (logical_length_nonneg decoder rest) as HL.
    pose proof (len_at_bounds decoder (Z_of_byte c)) as Hl.
    assert (HlenC : lenZ C = lenZ pre + 1 + lenZ rest)
      by (rewrite HCeq, lenZ_app, lenZ_cons; lia).
    assert (Hlk : lookupZ C (posIn st) = Some c)
      by (rewrite Hin, HCeq; apply lookupZ_middle).
    destruct (Z.ltb_spec (posIn st) (lenZ C)); [|lia].
    rewrite (loop_body_code _ _ _ _ c Hlk Hc). unfold expand_symbol.
    cbn [set_posIn set_posOut record posOut]. rewrite Hin.
    rewrite !wrap_small by lia. rewrite Z.gtb_ltb.
    rewrite copy_loop_done
      by (destruct (Z.ltb_spec size (posOut st + len_at decoder (Z_of_byte c))); lia).
    cbn [bind]. unfold set_posOut, set_posIn, record.
    cbn [posIn posOut strOut trace].
    set (st1 := mk_state _ _ _ _).
    destruct (IH (pre ++ [c]) st1 fuel) as (st' & Hrun & Hout & Hbuf & Hst & Hsym);
      try (subst st1; cbn [posIn posOut]; lia).
    + now rewrite <- app_assoc.
    + subst st1. cbn [posIn]. rewrite lenZ_app. reflexivity.
    + cbn in Hfuel. lia.
    + exists st'. split; [exact Hrun|]. subst st1.
      cbn [posOut strOut trace] in *.
      rewrite store_indices_app, sym_loads_app in *.
      cbn [store_indices sym_loads] in Hst, Hsym.
      rewrite app_nil_r in *. repeat split; try assumption. lia.
  - destruct fuel as [|fuel]; [cbn in Hfuel; lia|]. cbn [while_loop].
    pose proof (lenZ_nonneg pre) as Hpre.
    assert (HlenC : lenZ C = lenZ pre + 1)
      by (rewrite HCeq, lenZ_app; reflexivity).
    assert (Hlk : lookupZ C (posIn st) = Some c)
      by (rewrite Hin, HCeq; apply lookupZ_middle).
    destruct (Z.ltb_spec (posIn st) (lenZ C)); [|lia].
    rewrite (loop_body_escape _ _ _ _ c Hlk Hc). unfold expand_escape.
    cbn [set_posIn record posIn posOut]. rewrite Hin.
    destruct (Z.ltb_spec (posOut st) size); [lia|]. cbn [bind].
    unfold set_posOut, set_posIn, record. cbn [posIn posOut strOut trace].
    rewrite (wrap_small (lenZ pre + 1)) by lia. rewrite !wrap_small by lia.
    rewrite while_loop_exit by (cbn [posIn]; lia).
    eexists. split; [reflexivity|]. cbn [posOut strOut trace].
    rewrite store_indices_app, sym_loads_app. cbn [store_indices sym_loads].
    rewrite !app_nil_r. repeat split.
  - destruct fuel as [|fuel]; [cbn in Hfuel; lia|]. cbn [while_loop].
    pose proof (lenZ_nonneg pre) as Hpre. pose proof (lenZ_nonneg rest) as Hrest.
    pose proof (logical_length_nonneg decoder rest) as HL.
    assert (HlenC : lenZ C = lenZ pre + 2 + lenZ rest)
      by (rewrite HCeq, lenZ_app, !lenZ_cons; lia).
    assert (Hlk : lookupZ C (posIn st) = Some c)
      by (rewrite Hin, HCeq; apply lookupZ_middle).
    destruct (Z.ltb_spec (posIn st) (lenZ C)); [|lia].
    rewrite (loop_body_escape _ _ _ _ c Hlk Hc). unfold expand_escape.
    cbn [set_posIn record posIn posOut]. rewrite Hin.
    destruct (Z.ltb_spec (posOut st) size); [lia|]. cbn [bind].
    unfold set_posOut, set_posIn, record. cbn [posIn posOut strOut trace].
    rewrite (wrap_small (lenZ pre + 1)) by lia. rewrite !wrap_small by lia.
    set (st1 := mk_state _ _ _ _).
    destruct (IH (pre ++ [c; b]) st1 fuel) as (st' & Hrun & Hout & Hbuf & Hst & Hsym);
      try (subst st1; cbn [posIn posOut]; lia).
    + now rewrite <- app_assoc.
    + subst st1. cbn [posIn]. rewrite lenZ_app. change (lenZ [c; b]) with 2. lia.
    + cbn in Hfuel. lia.
    + exists st'. split; [exact Hrun|]. subst st1.
      cbn [posOut strOut trace] in *.
      rewrite store_indices_app, sym_loads_app in *.
      cbn [store_indices sym_loads] in Hst, Hsym.
      rewrite app_nil_r in *. repeat split; try assumption. lia.
Qed.

(** X10.  Measuring.  A call with an empty buffer returns the decompressed
    length for every table, whatever its lengths, and every compressed
    string, also one that ends in an escape marker: it never fails, loads
    no byte of a symbol, and stores nothing if the zero-terminated bit is
    clear. *)
Theorem X10_empty_buffer_measures decoder C :
  lenZ C + 1 < size_modulus -> logical_length decoder C < size_modulus ->
  exists o,
    fsst_decompress decoder (lenZ C) C 0 [] = Ok o
    /\ returned o = logical_length decoder C
    /\ buffer o = []
    /\ sym_loads (accesses o) = []
    /\ store_indices (accesses o)
       = if zt_bit decoder then [wrap (0 - 1)] else [].
Proof.
  intros HC HL.
  destruct (full_buffer_loop decoder C 0 HC C [] (initial []) (Z.to_nat (lenZ C)))
    as (st & Hloop & Hout & Hbuf & Hst & Hsym);
    try reflexivity; try (cbn [initial posOut]; lia).
  - unfold lenZ. lia.
  - unfold fsst_decompress. rewrite Hloop. cbn [bind].
    cbn [initial posOut strOut trace store_indices sym_loads] in *.
    rewrite Z.add_0_l in Hout.
    pose proof (logical_length_nonneg decoder C) as HL0.
    eexists. split; [reflexivity|]. cbn [returned buffer accesses]. unfold terminate.
    rewrite Hout. destruct (Z.geb_spec (logical_length decoder C) 0); [|lia].
    cbn [andb]. destruct (zt_bit decoder).
    + cbn [store posOut strOut trace]. rewrite Hbuf, Hout.
      rewrite store_indices_app, sym_loads_app, Hst, Hsym. cbn.
      destruct (_ && _); auto.
    + rewrite Hout, Hbuf, Hst, Hsym. auto.
Qed.

Lemma X10_witness :
  exists o,
    fsst_decompress wide_decoder 5 [x05; xfe; xff; xff; xff] 0 [] = Ok o
    /\ returned o = 20
    /\ buffer o = []
    /\ sym_loads (accesses o) = []
    /\ store_indices (accesses o) = if zt_bit wide_decoder then [wrap (0 - 1)] else [].
Proof.
  exact (X10_empty_buffer_measures wide_decoder [x05; xfe; xff; xff; xff]
           eq_refl eq_refl).
Defined.

(** ** Every call ends *)

Lemma reachable_cursors decoder lenIn strIn size output st :
  reachable decoder lenIn strIn size output st ->
  0 <= posIn st /\ 0 <= posOut st.
Proof.
  induction 1 as [|st st' _ [Hin Hout] [_ Hbody]]; [cbn; lia|].
  apply loop_body_cursors in Hbody as [[Hin'|Hin'] Hout']; try exact Hout;
    rewrite Hin'; split; try apply wrap_bounds; exact Hout'.
Qed.

(** X11.  Whatever the table and the compressed string, well formed or not,
    every iteration moves the input cursor forward by one or by two, and a
    call makes at most [lenIn] iterations: it returns, or it stops at a
    load out of bounds. *)
Theorem X11_every_call_ends decoder lenIn strIn size output :
  lenIn + 1 < size_modulus ->
  (forall st st',
     reachable decoder lenIn strIn size output st ->
     step decoder lenIn strIn size st st' ->
     posIn st' = posIn st + 1 \/ posIn st' = posIn st + 2)
  /\ fsst_decompress decoder lenIn strIn size output <> Err OutOfFuel.
Proof.
  intros Hlen. split; [|now apply fuel_suffices].
  intros st st' Hreach [Hmore Hbody].
  apply reachable_cursors in Hreach as [Hin Hout].
  apply loop_body_cursors in Hbody as [Hin' _]; [|exact Hout].
  rewrite !wrap_small in Hin' by (rewrite ?wrap_small; lia). lia.
Qed.

Lemma X11_witness :
  fsst_decompress (sample_decoder x00) 3 [xff; xff; xff] 8 (replicate 8 xaa)
  <> Err OutOfFuel.
Proof.
  exact (proj2 (X11_every_call_ends (sample_decoder x00) 3 [xff; xff; xff] 8
                  (replicate 8 xaa) eq_refl)).
Defined.

(** ** Buffers of two capacities *)

(** X12.  Truncation cuts, it does not alter: with the zero-terminated bit
    clear, what a call leaves in a buffer of capacity [k <= L] is the first
    [k] bytes of what a call leaves in any buffer of a larger capacity. *)
Theorem X12_truncation_is_a_prefix decoder C buf1 buf2 :
  zt_bit decoder = false ->
  table_ok decoder = true -> well_formed C = true ->
  lenZ C < size_modulus -> logical_length decoder C < size_modulus ->
  lenZ buf1 <= logical_length decoder C -> lenZ buf1 <= lenZ buf2 ->
  exists o1 o2,
    fsst_decompress decoder (lenZ C) C (lenZ buf1) buf1 = Ok o1
    /\ fsst_decompress decoder (lenZ C) C (lenZ buf2) buf2 = Ok o2
    /\ buffer o1 = take (length buf1) (buffer o2).
Proof.
  intros Hzt Hok Hwf HC HL Hk Hle.
  destruct (fsst_decompress_run decoder C buf1 Hok Hwf HC HL) as (st1 & _ & _ & Hrun1).
  destruct (fsst_decompress_run decoder C buf2 Hok Hwf HC HL) as (st2 & _ & _ & Hrun2).
  rewrite Hzt, andb_false_r in Hrun1, Hrun2.
  do 2 eexists. split; [exact Hrun1|]. split; [exact Hrun2|]. cbn [buffer].
  pose proof (length_expand decoder C Hwf) as HS. unfold lenZ in *.
  unfold overlay. rewrite (drop_ge buf1) by lia. rewrite app_nil_r.
  rewrite take_app_le by (rewrite length_take; lia).
  rewrite take_take. f_equal. lia.
Qed.

Lemma X12_witness :
  exists o1 o2,
    fsst_decompress (sample_decoder x00) 4 sample_input 3 (replicate 3 xaa) = Ok o1
    /\ fsst_decompress (sample_decoder x00) 4 sample_input 5 (replicate 5 x55) = Ok o2
    /\ buffer o1 = take 3 (buffer o2).
Proof.
  exact (X12_truncation_is_a_prefix (sample_decoder x00) sample_input
           (replicate 3 xaa) (replicate 5 x55) eq_refl eq_refl eq_refl eq_refl
           eq_refl ltac:(vm_compute; discriminate) ltac:(vm_compute; discriminate)).
Defined.

(** ** Strings of escapes *)

Lemma escape_all_cons b lits :
  escape_all (b :: lits) = xff :: b :: escape_all lits.
Proof. reflexivity. Qed.

Lemma lenZ_escape_all lits : lenZ (escape_all lits) = 2 * lenZ lits.
Proof.
  induction lits as [|b lits IH]; [reflexivity|].
  rewrite escape_all_cons, !lenZ_cons, IH. lia.
Qed.

Lemma escape_all_loop decoder C buf :
  lenZ C < size_modulus ->
  forall lits pre P st fuel,
    C = pre ++ escape_all lits ->
    posIn st = lenZ pre -> posOut st = lenZ P -> strOut st = overlay P buf ->
    lenZ P + lenZ lits < size_modulus ->
    (length lits <= fuel)%nat ->
    exists st',
      while_loop fuel decoder (lenZ C) C (lenZ buf) st = Ok st'
      /\ posOut st' = lenZ P + lenZ lits
      /\ strOut st' = overlay (P ++ lits) buf
      /\ sym_loads (trace st') = sym_loads (trace st).
Proof.
  intros HC. induction lits as [|b lits IH];
    intros pre P st fuel HCeq Hin Hout Hbuf Hmax Hfuel.
  - exists st. cbn [escape_all flat_map] in HCeq. rewrite app_nil_r in *. subst pre.
    rewrite while_loop_exit by lia. change (lenZ (@nil byte)) with 0.
    repeat split; (lia || assumption).
  - destruct fuel as [|fuel]; [cbn in Hfuel; lia|]. cbn [while_loop].
    rewrite escape_all_cons in HCeq.
    pose proof (lenZ_nonneg pre) as Hpre. pose proof (lenZ_nonneg lits) as Hlits.
    pose proof (lenZ_nonneg P) as HP.
    assert (HlenC : lenZ C = lenZ pre + 2 + 2 * lenZ lits)
      by (rewrite HCeq, lenZ_app, !lenZ_cons, lenZ_escape_all; lia).
    rewrite lenZ_cons in Hmax.
    assert (Hlk : lookupZ C (posIn st) = Some xff)
      by (rewrite Hin, HCeq; apply lookupZ_middle).
    destruct (Z.ltb_spec (posIn st) (lenZ C)); [|lia].
    rewrite (loop_body_escape _ _ _ _ xff Hlk eq_refl).
    set (st2 := set_posIn _ _).
    assert (Hin2 : posIn st2 = lenZ pre + 1)
      by (subst st2; cbn; rewrite Hin; apply wrap_small; lia).
    destruct (expand_escape_spec C P buf b st2)
      as (st3 & Hrun & Hin3 & Hout3 & Hbuf3);
      [|lia|lia|exact Hout|exact Hbuf|lia|].
    { rewrite Hin2, HCeq.
      replace (pre ++ xff :: b :: escape_all lits)
        with ((pre ++ [xff]) ++ b :: escape_all lits) by now rewrite <- app_assoc.
      replace (lenZ pre + 1) with (lenZ (pre ++ [xff]))
        by (rewrite lenZ_app; reflexivity).
      apply lookupZ_middle. }
    rewrite Hrun. cbn [bind].
    pose proof Hrun as Htrace.
    apply expand_escape_trace in Htrace as (_ & _ & _ & new & Htr & _ & _ & Hsym);
      [|subst st2; cbn; lia].
    destruct (IH (pre ++ [xff; b]) (P ++ [b]) st3 fuel)
      as (st' & Hrun' & Hout' & Hbuf' & Hsym').
    + now rewrite HCeq, <- app_assoc.
    + rewrite Hin3, Hin2, lenZ_app. change (lenZ [xff; b]) with 2. lia.
    + rewrite Hout3, lenZ_app. reflexivity.
    + exact Hbuf3.
    + rewrite lenZ_app. change (lenZ [b]) with 1. lia.
    + cbn in Hfuel. lia.
    + exists st'. rewrite lenZ_app in Hout'. change (lenZ [b]) with 1 in Hout'.
      rewrite <- app_assoc in Hbuf'. rewrite lenZ_cons.
      repeat split; try assumption; [lia|].
      rewrite Hsym', Htr, sym_loads_app, Hsym. subst st2.
      cbn [set_posIn record trace]. rewrite sym_loads_app. cbn.
      now rewrite !app_nil_r.
Qed.

(** X13.  Bytes behind escape markers come out as they are, whatever the
    table: a compressed string of escape units decompresses to the bytes
    escaped, the value returned is their number, and no byte of a symbol is
    loaded. *)
Theorem X13_escapes_copy_verbatim decoder lits buf :
  2 * lenZ lits < size_modulus ->
  exists o,
    fsst_decompress decoder (lenZ (escape_all lits)) (escape_all lits) (lenZ buf) buf
    = Ok o
    /\ returned o = lenZ lits
    /\ sym_loads (accesses o) = []
    /\ (lenZ lits < lenZ buf
        \/ lenZ lits <= lenZ buf /\ zt_bit decoder = false ->
        take (length lits) (buffer o) = lits).
Proof.
  intros Hlen. pose proof (lenZ_nonneg lits) as Hlits.
  destruct (escape_all_loop decoder (escape_all lits) buf
              ltac:(rewrite lenZ_escape_all; lia) lits [] [] (initial buf)
              (Z.to_nat (lenZ (escape_all lits))))
    as (st & Hloop & Hout & Hbuf & Hsym); try reflexivity.
  - cbn. now rewrite overlay_nil.
  - change (lenZ (@nil byte)) with 0. lia.
  - rewrite lenZ_escape_all. unfold lenZ. lia.
  - change (lenZ (@nil byte)) with 0 in Hout. rewrite Z.add_0_l in Hout.
    cbn [app initial trace sym_loads] in Hbuf, Hsym.
    unfold fsst_decompress. rewrite Hloop. cbn [bind].
    eexists. split; [reflexivity|]. cbn [returned buffer accesses]. unfold terminate.
    rewrite Hout, Z.geb_leb. repeat split.
    + destruct (_ && _); [cbn [store posOut]|]; exact Hout.
    + destruct (_ && _); [cbn [store trace]; rewrite sym_loads_app, Hsym|];
        auto.
    + intros Hroom.
      assert (Hforce : (lenZ buf <=? lenZ lits) && zt_bit decoder = false).
      { destruct Hroom as [Hroom|[Hroom Hzt]].
        - destruct (Z.leb_spec (lenZ buf) (lenZ lits)); [lia|reflexivity].
        - now rewrite Hzt, andb_false_r. }
      rewrite Hforce, Hbuf. unfold overlay.
      rewrite (take_ge lits) by (unfold lenZ in *; lia). apply take_app_length.
Qed.

Lemma X13_witness :
  exists o,
    fsst_decompress wide_decoder 6 [xff; x05; xff; xff; xff; x00] 3 (replicate 3 xaa)
    = Ok o
    /\ returned o = 3
    /\ sym_loads (accesses o) = []
    /\ (3 < 3 \/ 3 <= 3 /\ zt_bit wide_decoder = false ->
        take 3 (buffer o) = [x05; xff; x00]).
Proof.
  exact (X13_escapes_copy_verbatim wide_decoder [x05; xff; x00] (replicate 3 xaa)
           eq_refl).
Defined.
